(** * pyLoad core: chunk layout, captcha broker and info-result cache

    A shallow embedding of four modules of the pyLoad core,

    - [pyload/core/network/http/http_chunk.py]   (class [ChunkInfo]),
    - [pyload/core/managers/captcha_manager.py]  ([CaptchaManager], [CaptchaTask]),
    - [pyload/core/managers/thread_manager.py]   ([ThreadManager]),
    - [pyload/core/api/__init__.py]              ([Api.pollResults]),

    together with the properties of the design document that concern them.

    Conventions.  Python [int] is [Z]; Python [str] is [string], of
    code points below 256; a [dict] is a [gmap]; a raised exception is
    the [Raise] branch of [result]; [None] is [None].  The regular
    files are a map from file to text, and what the operating system
    makes of a path (which file it names, what it refuses) is a
    parameter of the operations that open files.  Mutable objects that are shared between a caller
    and a manager (captcha tasks) live in an explicit store and are passed
    by reference.  Clock readings ([time.time()]) are arguments of the
    operations that read the clock; times are integers in a fixed unit
    (seconds, and milliseconds for [time.sleep]), of which only order
    and sums are used. *)

From Stdlib Require Import ZArith List Ascii String Lia.
From Stdlib Require Import DecimalString DecimalPos DecimalN DecimalZ.
From stdpp Require Import base option list gmap strings.

Open Scope string_scope.
Open Scope list_scope.
Open Scope Z_scope.

(** ** Exceptions and results *)

Inductive exn : Type :=
| ZeroDivisionError
| TypeError
| KeyError
| ValueError
| IndexError
| IOError
| WrongFormat.

Inductive result (A : Type) : Type :=
| Ok (a : A)
| Raise (e : exn).

Arguments Ok {A} a.
Arguments Raise {A} e.

Definition rbind {A B : Type} (r : result A) (k : A -> result B) : result B :=
  match r with
  | Ok a => k a
  | Raise e => Raise e
  end.

Notation "x <-! r ;; k" := (rbind r (fun x => k))
  (at level 100, r at next level, right associativity).

(** ** Python values that are converted with [str] or [int] *)

Inductive pyval : Type :=
| PInt (z : Z)
| PStr (s : string).

(** [str(n)] for an integer: the decimal numeral, with a leading ["-"]
    for negative numbers. *)
Definition str_of_int (z : Z) : string :=
  NilEmpty.string_of_int (Z.to_int z).

(** [str(v)]. *)
Definition py_str (v : pyval) : string :=
  match v with
  | PInt z => str_of_int z
  | PStr s => s
  end.

(** ** Text: slicing, splitting, [int(str)] and text files

    A character is a code point below 256; the decimal digits among
    them are the ASCII ones. *)

Definition LF : ascii := "010"%char.
Definition CR : ascii := "013"%char.

(** [s[:-1]] *)
Fixpoint drop_last (s : string) : string :=
  match s with
  | EmptyString => EmptyString
  | String c r =>
      match r with
      | EmptyString => EmptyString
      | String _ _ => String c (drop_last r)
      end
  end.

(** [s[n:]] *)
Fixpoint skip (n : nat) (s : string) : string :=
  match n, s with
  | O, _ => s
  | S _, EmptyString => EmptyString
  | S n', String _ r => skip n' r
  end.

(** [s.startswith(p)] *)
Definition startswith (p s : string) : bool := String.prefix p s.

(** [s.split(sep)] for a one-character separator; [cur] is the piece
    being read.  The result is never empty. *)
Fixpoint split_go (sep : ascii) (cur s : string) : list string :=
  match s with
  | EmptyString => [cur]
  | String c r =>
      if Ascii.eqb c sep then cur :: split_go sep EmptyString r
      else split_go sep (cur +:+ String c EmptyString) r
  end.

Definition split (sep : ascii) (s : string) : list string :=
  split_go sep EmptyString s.

(** [l[i]] on a list. *)
Definition index {A : Type} (l : list A) (i : nat) : result A :=
  match l !! i with
  | Some a => Ok a
  | None => Raise IndexError
  end.

(** [l[i]] for an integer [i]: a negative index counts from the end. *)
Definition py_index {A : Type} (l : list A) (i : Z) : result A :=
  let n := Z.of_nat (List.length l) in
  let j := if i <? 0 then i + n else i in
  if (0 <=? j) && (j <? n) then index l (Z.to_nat j) else Raise IndexError.

(** White space as [int] sees it around a literal: the codes 9 to 13
    and 32, which its parser skips, and the code points 133 and 160,
    the white space beyond ASCII, which [int] turns into blanks before
    it parses.  The codes 28 to 31 are white space for [str.strip] but
    not for [int]. *)
Definition int_space (c : ascii) : bool :=
  let n := nat_of_ascii c in
  ((9 <=? n) && (n <=? 13) || (n =? 32) || (n =? 133) || (n =? 160))%nat.

Fixpoint lstrip (s : string) : string :=
  match s with
  | EmptyString => EmptyString
  | String c r => if int_space c then lstrip r else s
  end.

Fixpoint rstrip (s : string) : string :=
  match s with
  | EmptyString => EmptyString
  | String c r =>
      match rstrip r with
      | EmptyString => if int_space c then EmptyString else String c EmptyString
      | r' => String c r'
      end
  end.

Definition strip (s : string) : string := rstrip (lstrip s).

(** The value of a decimal digit, from its code (["0"] is 48). *)
Definition digit_val (c : ascii) : option Z :=
  let code := Z.of_nat (nat_of_ascii c) in
  if (48 <=? code) && (code <=? 57) then Some (code - 48) else None.

(** The digits of a decimal literal, read left to right: at least one
    digit, single underscores allowed between digits.  [after_digit]
    tells whether the previous character was a digit. *)
Fixpoint int_digits (acc : Z) (after_digit : bool) (s : string) : option Z :=
  match s with
  | EmptyString => if after_digit then Some acc else None
  | String c r =>
      match digit_val c with
      | Some d => int_digits (10 * acc + d) true r
      | None =>
          if Ascii.eqb c "_" && after_digit then int_digits acc false r
          else None
      end
  end.

(** The literal [d] after its sign was read. *)
Definition int_of_digits (neg : bool) (d : string) : result Z :=
  match int_digits 0 false d with
  | Some v => Ok (if neg then - v else v)
  | None => Raise ValueError
  end.

(** [int(s)] for a string, base 10: surrounding white space is dropped,
    an optional sign is read, the rest must be a decimal literal;
    anything else is a [ValueError]. *)
Definition int_of_str (s : string) : result Z :=
  match strip s with
  | String "-" d => int_of_digits true d
  | String "+" d => int_of_digits false d
  | d => int_of_digits false d
  end.

(** [int(v)] *)
Definition py_int (v : pyval) : result Z :=
  match v with
  | PInt z => Ok z
  | PStr s => int_of_str s
  end.

(** The value of a numeral read left to right from [acc]. *)
Fixpoint lval (acc : N) (u : Decimal.uint) : N :=
  match u with
  | Decimal.Nil => acc
  | Decimal.D0 u => lval (10 * acc) u
  | Decimal.D1 u => lval (10 * acc + 1) u
  | Decimal.D2 u => lval (10 * acc + 2) u
  | Decimal.D3 u => lval (10 * acc + 3) u
  | Decimal.D4 u => lval (10 * acc + 4) u
  | Decimal.D5 u => lval (10 * acc + 5) u
  | Decimal.D6 u => lval (10 * acc + 6) u
  | Decimal.D7 u => lval (10 * acc + 7) u
  | Decimal.D8 u => lval (10 * acc + 8) u
  | Decimal.D9 u => lval (10 * acc + 9) u
  end%N.

(** A text file opened for reading with the default [newline=None]:
    the lines that successive [readline()] calls return.  A line ends
    at ["\n"], at ["\r"] or at ["\r\n"], each handed out as ["\n"]; the
    last line may lack a terminator.  [cur] is the line being read. *)
Fixpoint readlines_go (cur s : string) : list string :=
  match s with
  | EmptyString =>
      match cur with
      | EmptyString => []
      | String _ _ => [cur]
      end
  | String c r =>
      if Ascii.eqb c LF then
        (cur +:+ String LF EmptyString) :: readlines_go EmptyString r
      else if Ascii.eqb c CR then
        (cur +:+ String LF EmptyString) ::
        match r with
        | EmptyString => []
        | String c' r' =>
            if Ascii.eqb c' LF then readlines_go EmptyString r'
            else readlines_go EmptyString r
        end
      else readlines_go (cur +:+ String c EmptyString) r
  end.

Definition readlines (text : string) : list string :=
  readlines_go EmptyString text.

(** [fh.readline()] on the lines that remain: the next line and the
    rest, or [""] at the end of the file. *)
Definition readline (fh : list string) : string * list string :=
  match fh with
  | [] => (EmptyString, [])
  | l :: fh' => (l, fh')
  end.

(** Every character of a string passes a test. *)
Fixpoint all_chars (P : ascii -> bool) (s : string) : bool :=
  match s with
  | EmptyString => true
  | String c r => P c && all_chars P r
  end.

Definition is_linebreak (c : ascii) : bool := Ascii.eqb c LF || Ascii.eqb c CR.

(** The string holds neither ["\n"] nor ["\r"]. *)
Definition no_linebreak (s : string) : bool :=
  all_chars (fun c => negb (is_linebreak c)) s.

Definition is_digit (c : ascii) : bool :=
  match digit_val c with
  | Some _ => true
  | None => false
  end.


(** ** Files

    The regular files, each under a key that tells it apart, with its
    text; the text written is what a later read sees (["\n"] is
    written as itself, as on POSIX). *)
Abbreviation filesystem := (gmap string string).

(** What the operating system makes of a path.  Which file a path
    names is its business (["f"] and ["./f"] name one file), and so is
    whether the path can be used at all:
    - [NoPath e]: the path names nothing and cannot (a NUL character
      in it, a directory that is missing, a name that is too long);
      [os.path.exists] is [False] and [open] raises [e];
    - [NotAFile e]: something that is no regular file is there (a
      directory); [os.path.exists] is [True], [open] and [os.remove]
      raise [e];
    - [File key deny_read deny_write deny_remove]: the path names the
      regular file [key], which exists if the file system holds it; a
      [deny_...] is the exception with which the operating system
      refuses that access, or makes it fail, if it does. *)
Inductive path_status : Type :=
| NoPath (e : exn)
| NotAFile (e : exn)
| File (key : string) (deny_read deny_write deny_remove : option exn).

Section Files.

(** The directories, the rights and the rules for names stay as they
    are while the program runs, so the meaning of a path does not
    depend on the regular files. *)
Variable os : string -> path_status.

(** [os.path.exists(path)] *)
Definition path_exists (path : string) (fs : filesystem) : bool :=
  match os path with
  | NoPath _ => false
  | NotAFile _ => true
  | File key _ _ _ => bool_decide (is_Some (fs !! key))
  end.

(** [with open(path, mode="w") as fh: fh.write(text)]: the file system
    afterwards.  Nothing is said about it when the call raises. *)
Definition write_text (path text : string) (fs : filesystem) : result filesystem :=
  match os path with
  | NoPath e | NotAFile e => Raise e
  | File key _ deny_write _ =>
      match deny_write with
      | Some e => Raise e
      | None => Ok (<[key := text]> fs)
      end
  end.

(** [open(path)] for reading: the text of the file. *)
Definition read_text (path : string) (fs : filesystem) : result string :=
  match os path with
  | NoPath e | NotAFile e => Raise e
  | File key deny_read _ _ =>
      match deny_read, fs !! key with
      | Some e, _ => Raise e
      | None, Some text => Ok text
      | None, None => Raise IOError
      end
  end.

(** [os.remove(path)] *)
Definition os_remove (path : string) (fs : filesystem) : result filesystem :=
  match os path with
  | NoPath e | NotAFile e => Raise e
  | File key _ _ deny_remove =>
      match deny_remove, fs !! key with
      | Some e, _ => Raise e
      | None, Some _ => Ok (delete key fs)
      | None, None => Raise IOError
      end
  end.

(** The regular file that a path names, if it names one. *)
Definition file_of (path : string) : option string :=
  match os path with
  | File key _ _ _ => Some key
  | _ => None
  end.

End Files.

(** ** http_chunk.py *)

Module HTTPChunk.

(** A chunk entry [(name, (start, end))]; the range is inclusive. *)
Definition chunk : Type := string * (Z * Z).

(** The attributes of a [ChunkInfo] object.  [loaded] is the attribute
    that [ChunkInfo.load] adds to the object it builds. *)
Record ChunkInfo : Type := mkChunkInfo {
  ci_name : string;
  ci_size : Z;
  ci_resume : bool;
  ci_chunks : list chunk;
  ci_loaded : bool
}.

(** [ChunkInfo.__init__(name)] *)
Definition init (name : string) : ChunkInfo :=
  {| ci_name := name; ci_size := 0; ci_resume := false;
     ci_chunks := []; ci_loaded := false |}.

Definition with_size (z : Z) (ci : ChunkInfo) : ChunkInfo :=
  {| ci_name := ci_name ci; ci_size := z; ci_resume := ci_resume ci;
     ci_chunks := ci_chunks ci; ci_loaded := ci_loaded ci |}.

Definition with_chunks (l : list chunk) (ci : ChunkInfo) : ChunkInfo :=
  {| ci_name := ci_name ci; ci_size := ci_size ci; ci_resume := ci_resume ci;
     ci_chunks := l; ci_loaded := ci_loaded ci |}.

Definition with_loaded (b : bool) (ci : ChunkInfo) : ChunkInfo :=
  {| ci_name := ci_name ci; ci_size := ci_size ci; ci_resume := ci_resume ci;
     ci_chunks := ci_chunks ci; ci_loaded := b |}.

(** [addChunk(name, range)]: [self.chunks.append((name, range))] *)
Definition addChunk (name : string) (range : Z * Z) (ci : ChunkInfo) : ChunkInfo :=
  with_chunks (ci_chunks ci ++ [(name, range)]) ci.

(** [clear()]: [self.chunks = []] *)
Definition clear (ci : ChunkInfo) : ChunkInfo := with_chunks [] ci.

(** The body of [for i in range(chunks)] in [createChunks]; [todo] counts
    the iterations that remain, [i] is the loop variable and [current]
    the local of that name. *)
Fixpoint createChunks_loop (chunks chunk_size : Z) (todo : nat)
    (i current : Z) (ci : ChunkInfo) : ChunkInfo :=
  match todo with
  | O => ci
  | S todo' =>
      let end_ := if i =? chunks - 1 then ci_size ci - 1
                  else current + chunk_size in
      let ci' := addChunk (ci_name ci +:+ ".chunk" +:+ str_of_int i)
                          (current, end_) ci in
      createChunks_loop chunks chunk_size todo' (i + 1)
                        (current + (chunk_size + 1)) ci'
  end.

(** The entry that the loop of [createChunks] appends [j] rounds after
    the round with loop variable [i] and local [current]. *)
Definition loop_entry (ci : ChunkInfo) (K cs i current : Z) (j : nat) : chunk :=
  (ci_name ci +:+ ".chunk" +:+ str_of_int (i + Z.of_nat j),
   (current + Z.of_nat j * (cs + 1),
    if i + Z.of_nat j =? K - 1 then ci_size ci - 1
    else current + Z.of_nat j * (cs + 1) + cs)).

(** [createChunks(chunks)].  [self.size // chunks] raises for a zero
    divisor; [range(chunks)] is empty for a negative count. *)
Definition createChunks (chunks : Z) (ci : ChunkInfo) : result ChunkInfo :=
  let ci := clear ci in
  if chunks =? 0 then Raise ZeroDivisionError
  else
    let chunk_size := ci_size ci / chunks in
    Ok (createChunks_loop chunks chunk_size (Z.to_nat chunks) 0 0 ci).

(** The range that [createChunks] gives chunk [i] of [K], in closed form. *)
Definition chunk_range (S K i : Z) : Z * Z :=
  (i * (S / K + 1),
   if i =? K - 1 then S - 1 else i * (S / K + 1) + S / K).



(** [setSize(size)]: [self.size = int(size)] *)
Definition setSize (v : pyval) (ci : ChunkInfo) : result ChunkInfo :=
  z <-! py_int v ;; Ok (with_size z ci).

(** What the [for i, c in enumerate(self.chunks)] loop of [save] writes,
    [i] being the index of the first chunk of [l]. *)
Fixpoint save_chunks (i : Z) (l : list chunk) : string :=
  match l with
  | [] => EmptyString
  | c :: l' =>
      "#" +:+ str_of_int i +:+ ":" +:+ String LF EmptyString
      +:+ String "009" ("name:" +:+ c.1 +:+ String LF EmptyString)
      +:+ String "009" ("range:" +:+ str_of_int c.2.1 +:+ "-"
                        +:+ str_of_int c.2.2 +:+ String LF EmptyString)
      +:+ save_chunks (i + 1) l'
  end.

(** The text of the sidecar file. *)
Definition sidecar_text (ci : ChunkInfo) : string :=
  "name:" +:+ ci_name ci +:+ String LF EmptyString
  +:+ "size:" +:+ str_of_int (ci_size ci) +:+ String LF EmptyString
  +:+ save_chunks 0 (ci_chunks ci).

(** [save()]: write the sidecar [<name>.chunks]. *)
Definition save (os : string -> path_status) (ci : ChunkInfo) (fs : filesystem)
    : result filesystem :=
  write_text os (ci_name ci +:+ ".chunks") (sidecar_text ci) fs.

(** One pass of the [while True] loop of [load] after its first
    [readline()]: the two lines read next, [""] at the end of the file. *)
Definition load_block (l_name l_range : string) (ci : ChunkInfo)
    : result ChunkInfo :=
  let name := drop_last (skip 1 l_name) in
  let range := drop_last (skip 1 l_range) in
  if startswith "name:" name && startswith "range:" range then
    let name := skip 5 name in
    let range := split "-" (skip 6 range) in
    r0 <-! index range 0 ;;
    lo <-! int_of_str r0 ;;
    r1 <-! index range 1 ;;
    hi <-! int_of_str r1 ;;
    Ok (addChunk name (lo, hi) ci)
  else Raise WrongFormat.

(** The [while True] loop of [load] over the lines that remain. *)
Fixpoint load_loop (fh : list string) (ci : ChunkInfo) : result ChunkInfo :=
  match fh with
  | [] => Ok ci
  | _ :: fh1 =>
      match fh1 with
      | [] => load_block EmptyString EmptyString ci
      | l_name :: fh2 =>
          match fh2 with
          | [] => load_block l_name EmptyString ci
          | l_range :: fh3 =>
              ci' <-! load_block l_name l_range ci ;;
              load_loop fh3 ci'
          end
      end
  end.

(** The [with] block of [load], [text] being what the file holds. *)
Definition load_text (text : string) : result ChunkInfo :=
  let fh := readlines text in
  let '(l, fh) := readline fh in
  let name := drop_last l in
  let '(l, fh) := readline fh in
  let size := drop_last l in
  if startswith "name:" name && startswith "size:" size then
    let name := skip 5 name in
    let size := skip 5 size in
    let ci := with_loaded true (init name) in
    ci <-! setSize (PStr size) ci ;;
    load_loop fh ci
  else Raise WrongFormat.

(** [ChunkInfo.load(name)] *)
Definition load (os : string -> path_status) (name : string) (fs : filesystem)
    : result ChunkInfo :=
  let fs_name := name +:+ ".chunks" in
  if negb (path_exists os fs_name fs) then Raise IOError
  else
    text <-! read_text os fs_name fs ;;
    load_text text.

(** What [load] can read back of a chunk entry: a name without line
    break and bounds that are not negative. *)
Definition chunk_loadable (c : chunk) : Prop :=
  no_linebreak c.1 = true /\ 0 <= c.2.1 /\ 0 <= c.2.2.


(** [getCount()] *)
Definition getCount (ci : ChunkInfo) : Z := Z.of_nat (List.length (ci_chunks ci)).

(** [getChunkName(index)]: [self.chunks[index][0]] *)
Definition getChunkName (index : Z) (ci : ChunkInfo) : result string :=
  c <-! py_index (ci_chunks ci) index ;; Ok c.1.

(** [getChunkRange(index)]: [self.chunks[index][1]] *)
Definition getChunkRange (index : Z) (ci : ChunkInfo) : result (Z * Z) :=
  c <-! py_index (ci_chunks ci) index ;; Ok c.2.

(** [remove()]: delete the sidecar if it exists. *)
Definition remove (os : string -> path_status) (ci : ChunkInfo) (fs : filesystem)
    : result filesystem :=
  let fs_name := ci_name ci +:+ ".chunks" in
  if path_exists os fs_name fs then os_remove os fs_name fs else Ok fs.

End HTTPChunk.


(** ** captcha_manager.py *)

Module Captcha.

(** A reference to a [CaptchaTask] object. *)
Definition ref : Type := nat.

(** The attributes of a [CaptchaTask].  [ct_handler] holds references to
    the addon plugins that took the task; [ct_waitUntil] and [ct_error]
    are [None] until set. *)
Record CaptchaTask : Type := mkCaptchaTask {
  ct_id : string;
  ct_captchaParams : string;
  ct_captchaFormat : string;
  ct_captchaResultType : string;
  ct_handler : list nat;
  ct_result : option string;
  ct_waitUntil : option Z;
  ct_error : option string;
  ct_status : string;
  ct_data : gmap string string
}.

(** [CaptchaTask.__init__(id, format, params, result_type)] *)
Definition CaptchaTask_init (id : pyval) (format params result_type : string)
    : CaptchaTask :=
  {| ct_id := py_str id;
     ct_captchaParams := params;
     ct_captchaFormat := format;
     ct_captchaResultType := result_type;
     ct_handler := [];
     ct_result := None;
     ct_waitUntil := None;
     ct_error := None;
     ct_status := "init";
     ct_data := ∅ |}.

Definition with_waiting (w : Z) (t : CaptchaTask) : CaptchaTask :=
  {| ct_id := ct_id t; ct_captchaParams := ct_captchaParams t;
     ct_captchaFormat := ct_captchaFormat t;
     ct_captchaResultType := ct_captchaResultType t;
     ct_handler := ct_handler t; ct_result := ct_result t;
     ct_waitUntil := Some w; ct_error := ct_error t;
     ct_status := "waiting"; ct_data := ct_data t |}.

Definition with_error (e : string) (t : CaptchaTask) : CaptchaTask :=
  {| ct_id := ct_id t; ct_captchaParams := ct_captchaParams t;
     ct_captchaFormat := ct_captchaFormat t;
     ct_captchaResultType := ct_captchaResultType t;
     ct_handler := ct_handler t; ct_result := ct_result t;
     ct_waitUntil := ct_waitUntil t; ct_error := Some e;
     ct_status := ct_status t; ct_data := ct_data t |}.

Definition with_status (s : string) (t : CaptchaTask) : CaptchaTask :=
  {| ct_id := ct_id t; ct_captchaParams := ct_captchaParams t;
     ct_captchaFormat := ct_captchaFormat t;
     ct_captchaResultType := ct_captchaResultType t;
     ct_handler := ct_handler t; ct_result := ct_result t;
     ct_waitUntil := ct_waitUntil t; ct_error := ct_error t;
     ct_status := s; ct_data := ct_data t |}.

(** [max(a, b)] with [b] possibly [None]: the built-in keeps [a] unless
    [b > a], and comparing [None] with a number is a [TypeError]. *)
Definition py_max (a : Z) (b : option Z) : result Z :=
  match b with
  | None => Raise TypeError
  | Some w => Ok (if w >? a then w else a)
  end.

(** [setWaiting(sec)], the clock reading [now]. *)
Definition setWaiting (now sec : Z) (t : CaptchaTask) : result CaptchaTask :=
  w <-! py_max (now + sec) (ct_waitUntil t) ;;
  Ok (with_waiting w t).

(** [setWatingForUser(exclusive)] *)
Definition setWatingForUser (exclusive : bool) (t : CaptchaTask) : CaptchaTask :=
  if exclusive then with_status "user" t else with_status "shared-user" t.

(** [timedOut()]: [time.time() > self.waitUntil] *)
Definition timedOut (now : Z) (t : CaptchaTask) : result bool :=
  match ct_waitUntil t with
  | None => Raise TypeError
  | Some w => Ok (now >? w)
  end.

(** The task objects, by reference, and the [CaptchaManager] itself.
    [next] is the next free reference. *)
Record CaptchaManager : Type := mkCaptchaManager {
  heap : ref -> CaptchaTask;
  next : ref;
  tasks : list ref;
  ids : Z
}.

Definition upd (r : ref) (t : CaptchaTask) (h : ref -> CaptchaTask)
    : ref -> CaptchaTask :=
  fun r' => if Nat.eqb r' r then t else h r'.

(** [CaptchaManager.__init__] *)
Definition CaptchaManager_init : CaptchaManager :=
  {| heap := fun _ => CaptchaTask_init (PInt 0) "" "" "";
     next := O; tasks := []; ids := 0 |}.

(** [newTask(format, params, result_type)] *)
Definition newTask (format params result_type : string) (m : CaptchaManager)
    : ref * CaptchaManager :=
  let task := CaptchaTask_init (PInt (ids m)) format params result_type in
  (next m,
   {| heap := upd (next m) task (heap m); next := S (next m);
      tasks := tasks m; ids := ids m + 1 |}).

(** [list.remove(x)]: drop the first occurrence. *)
Fixpoint list_remove (r : ref) (l : list ref) : list ref :=
  match l with
  | [] => []
  | r' :: l' => if Nat.eqb r' r then l' else r' :: list_remove r l'
  end.

(** [removeTask(task)]; objects without [__eq__] compare by identity. *)
Definition removeTask (task : ref) (m : CaptchaManager) : CaptchaManager :=
  if bool_decide (task ∈ tasks m) then
    {| heap := heap m; next := next m;
       tasks := list_remove task (tasks m); ids := ids m |}
  else m.

(** [getTask()] *)
Definition getTask (m : CaptchaManager) : option ref :=
  List.find (fun r =>
               let st := ct_status (heap m r) in
               String.eqb st "waiting" || String.eqb st "shared-user")
            (tasks m).

(** [getTaskByID(tid)] *)
Definition getTaskByID (tid : pyval) (m : CaptchaManager) : option ref :=
  List.find (fun r => String.eqb (ct_id (heap m r)) (py_str tid)) (tasks m).

(** What [handleCaptcha] reads from the rest of the core:
    [isClientConnected()], the [newCaptchaTask] hooks of the active addon
    plugins (a hook may change the task in any way; an exception it
    raises is swallowed, what it changed before stays), and the
    translation function [_]. *)
Record CaptchaEnv : Type := mkCaptchaEnv {
  isClientConnected : bool;
  activePlugins : list (CaptchaTask -> CaptchaTask);
  gettext : string -> string
}.

Definition no_client_message : string :=
  "No Client connected for captcha decrypting".

(** The truth value of a list: it is true unless the list is empty. *)
Definition nonempty {A : Type} (l : list A) : bool :=
  match l with
  | [] => false
  | _ :: _ => true
  end.

(** [handleCaptcha(task, timeout)], the clock reading [now].  The
    manager after the call is returned also when the call raises. *)
Definition handleCaptcha (env : CaptchaEnv) (now : Z) (task : ref)
    (timeout : Z) (m : CaptchaManager) : CaptchaManager * result bool :=
  let cli := isClientConnected env in
  match setWaiting now timeout (heap m task) with
  | Raise e => (m, Raise e)
  | Ok t =>
      let t := fold_left (fun t plugin => plugin t) (activePlugins env) t in
      if nonempty (ct_handler t) || cli then
        ({| heap := upd task t (heap m); next := next m;
            tasks := tasks m ++ [task]; ids := ids m |},
         Ok true)
      else
        ({| heap := upd task (with_error (gettext env no_client_message) t)
                        (heap m);
            next := next m; tasks := tasks m; ids := ids m |},
         Ok false)
  end.

(** The task as [handleCaptcha] leaves the plugin loop, for a task whose
    [waitUntil] was the number [w]. *)
Definition offered (env : CaptchaEnv) (now timeout w : Z) (t : CaptchaTask)
    : CaptchaTask :=
  fold_left (fun t plugin => plugin t) (activePlugins env)
            (with_waiting (Z.max w (now + timeout)) t).

(** An assignment to attributes of a task from outside the manager. *)
Definition set_task (r : ref) (t : CaptchaTask) (m : CaptchaManager)
    : CaptchaManager :=
  {| heap := upd r t (heap m); next := next m; tasks := tasks m; ids := ids m |}.

(** [getCaptcha()] *)
Definition getCaptcha (t : CaptchaTask) : string * string * string :=
  (ct_captchaParams t, ct_captchaFormat t, ct_captchaResultType t).

(** [getStatus()] *)
Definition getStatus (t : CaptchaTask) : string := ct_status t.

(** [isTextual()], [isPositional()], [isInteractive()] *)
Definition isTextual (t : CaptchaTask) : bool :=
  String.eqb (ct_captchaResultType t) "textual".

Definition isPositional (t : CaptchaTask) : bool :=
  String.eqb (ct_captchaResultType t) "positional".

Definition isInteractive (t : CaptchaTask) : bool :=
  String.eqb (ct_captchaResultType t) "interactive".

(** The values that [setResult] gives the attribute [result]: [None],
    the text as submitted, or a pair of integers. *)
Inductive result_value : Type :=
| RNone
| RText (s : string)
| RPair (x y : Z).

(** The [try] block of [setResult]: [parts = result.split(",")] and
    [(int(parts[0]), int(parts[1]))]. *)
Definition parse_position (result_ : string) : result (Z * Z) :=
  let parts := split "," result_ in
  p0 <-! index parts 0 ;;
  x <-! int_of_str p0 ;;
  p1 <-! index parts 1 ;;
  y <-! int_of_str p1 ;;
  Ok (x, y).

(** [setResult(result)] for a submitted text: the value of
    [self.result] after the call, [old] being its value before. *)
Definition setResult (t : CaptchaTask) (result_ : string) (old : result_value)
    : result_value :=
  if isTextual t || isInteractive t then RText result_
  else if isPositional t then
    match parse_position result_ with
    | Ok (x, y) => RPair x y
    | Raise _ => RNone
    end
  else old.

(** The tasks that [newTask] has issued so far carry the decimal
    numerals of counter values below [ids]. *)
Definition ids_issued (m : CaptchaManager) : Prop :=
  forall r, (r < next m)%nat ->
    exists k, k < ids m /\ ct_id (heap m r) = str_of_int k.

(** The reading of the design document: a task can be fetched by its id
    exactly when its status is one of the open ones. *)
Definition open_status (s : string) : bool :=
  bool_decide (s ∈ ["waiting"; "user"; "shared-user"; "init"]).

Definition documented_reachability (m : CaptchaManager) (task : ref) : Prop :=
  getTaskByID (PStr (ct_id (heap m task))) m = Some task
  <-> open_status (ct_status (heap m task)) = true.

End Captcha.

(** ** thread_manager.py *)

Module ThreadMgr.

(** [timedelta(minutes=5).seconds] *)
Definition purge_window : Z := 5 * 60.

Definition ALL_INFO_FETCHED : string := "ALL_INFO_FETCHED".

Section Cache.

(** What a probe stores under a url (an online status), left abstract. *)
Variable Info : Type.

(** The attributes of [ThreadManager] that make up the info/result
    cache.  The worker threads, the pause flag and the rest belong to
    the part of the core that [run] reaches through its three calls. *)
Record ThreadManager : Type := mkThreadManager {
  infoCache : gmap string Info;
  resultIDs : Z;
  infoResults : gmap Z (gmap string Info);
  timestamp : Z
}.

(** The cache attributes as [__init__] sets them. *)
Definition ThreadManager_init : ThreadManager :=
  {| infoCache := ∅; resultIDs := 0; infoResults := ∅; timestamp := 0 |}.

Definition with_timestamp (t : Z) (tm : ThreadManager) : ThreadManager :=
  {| infoCache := infoCache tm; resultIDs := resultIDs tm;
     infoResults := infoResults tm; timestamp := t |}.

Definition with_infoResults (r : gmap Z (gmap string Info))
    (tm : ThreadManager) : ThreadManager :=
  {| infoCache := infoCache tm; resultIDs := resultIDs tm;
     infoResults := r; timestamp := timestamp tm |}.

(** [createResultThread(data, add)], the clock reading [now]: the
    result id and the manager.  [data] and [add] only go to the
    [InfoThread] it starts, which runs on its own and reaches the
    manager through [setInfoResults]. *)
Definition createResultThread (now : Z) (tm : ThreadManager)
    : Z * ThreadManager :=
  let tm := with_timestamp (now + purge_window) tm in
  let rid := resultIDs tm in
  (rid,
   {| infoCache := infoCache tm; resultIDs := resultIDs tm + 1;
      infoResults := infoResults tm; timestamp := timestamp tm |}).

(** [getInfoResult(rid)], the clock reading [now] *)
Definition getInfoResult (now : Z) (rid : Z) (tm : ThreadManager)
    : gmap string Info * ThreadManager :=
  let tm := with_timestamp (now + purge_window) tm in
  match infoResults tm !! rid with
  | Some data => (data, with_infoResults (<[rid := ∅]> (infoResults tm)) tm)
  | None => (∅, tm)
  end.

(** The bucket stored for [rid], empty if there is none. *)
Definition bucket_of (rid : Z) (tm : ThreadManager) : gmap string Info :=
  default ∅ (infoResults tm !! rid).

(** [setInfoResults(rid, result)]: [self.infoResults[rid].update(result)];
    the entries of [result] win over the stored ones. *)
Definition setInfoResults (rid : Z) (result_ : gmap string Info)
    (tm : ThreadManager) : result ThreadManager :=
  match infoResults tm !! rid with
  | None => Raise KeyError
  | Some bucket =>
      Ok (with_infoResults (<[rid := result_ ∪ bucket]> (infoResults tm)) tm)
  end.

(** What a tick leaves behind for an observer. *)
Inductive event : Type :=
| EvTryReconnect
| EvLogError (e : exn)
| EvReconnectingClear
| EvCheckThreadCount
| EvAssignJob
| EvLogWarning (e : exn)
| EvSleep (milliseconds : Z)
| EvLogDebug (msg : string).

(** The last statement of [run]: the cache expiry, the clock reading
    [now]. *)
Definition expire (now : Z) (tm : ThreadManager) : ThreadManager * list event :=
  if (negb (bool_decide (infoCache tm = ∅))
      || negb (bool_decide (infoResults tm = ∅)))
     && (timestamp tm <? now)
  then ({| infoCache := ∅; resultIDs := resultIDs tm;
           infoResults := ∅; timestamp := timestamp tm |},
        [EvLogDebug "Cleared Result cache"])
  else (tm, []).

(** The test of the expiry step. *)
Definition expiry_due (now : Z) (tm : ThreadManager) : Prop :=
  (infoCache tm <> ∅ \/ infoResults tm <> ∅) /\ timestamp tm < now.

Section Run.

(** The rest of the core as [run] sees it: a state [World] and the three
    methods [run] calls, each giving the state it leaves and the
    exception it raised, if any; [reconnecting_clear] is
    [self.reconnecting.clear()].  None of them touches the cache
    attributes. *)
Variable World : Type.
Variable tryReconnect checkThreadCount assignJob : World -> World * option exn.
Variable reconnecting_clear : World -> World.

(** The state a tick works on, and what it gives back: the state, the
    events in the order they happened, and the exception that left
    [run], if any. *)
Definition tick_state : Type := World * ThreadManager.
Definition tick_result : Type := tick_state * list event * option exn.

(** [run()], the clock reading [now] at its last statement. *)
Definition run (now : Z) (st : tick_state) : tick_result :=
  let '(w, tm) := st in
  let '(w, r) := tryReconnect w in
  let '(w, tr) :=
    match r with
    | Some exc => (reconnecting_clear w,
                   [EvTryReconnect; EvLogError exc; EvReconnectingClear])
    | None => (w, [EvTryReconnect])
    end in
  let '(w, r) := checkThreadCount w in
  let tr := tr ++ [EvCheckThreadCount] in
  match r with
  | Some exc => ((w, tm), tr, Some exc)
  | None =>
      let '(w, r) := assignJob w in
      let tr := tr ++ [EvAssignJob] in
      match r with
      | None =>
          let '(tm, ev) := expire now tm in
          ((w, tm), tr ++ ev, None)
      | Some exc =>
          let tr := tr ++ [EvLogWarning exc; EvSleep 500] in
          let '(w, r) := assignJob w in
          let tr := tr ++ [EvAssignJob] in
          match r with
          | Some exc' => ((w, tm), tr, Some exc')
          | None =>
              let '(tm, ev) := expire now tm in
              ((w, tm), tr ++ ev, None)
          end
      end
  end.

(** The state in which [run] reaches [checkThreadCount]: after
    [tryReconnect], and after [reconnecting.clear()] if that raised. *)
Definition after_reconnect (w : World) : World :=
  match (tryReconnect w).2 with
  | Some _ => reconnecting_clear (tryReconnect w).1
  | None => (tryReconnect w).1
  end.

(** The events of the reconnect step. *)
Definition reconnect_events (w : World) : list event :=
  match (tryReconnect w).2 with
  | Some exc => [EvTryReconnect; EvLogError exc; EvReconnectingClear]
  | None => [EvTryReconnect]
  end.

End Run.

(** The three operations of the design document's expiry rule. *)
Inductive cache_op : Type :=
| OpCreate
| OpRetrieve (rid : Z)
| OpMerge (rid : Z) (delta : gmap string Info).

(** The manager after an operation that returned, [None] if it raised. *)
Definition apply_op (now : Z) (op : cache_op) (tm : ThreadManager)
    : option ThreadManager :=
  match op with
  | OpCreate => Some (createResultThread now tm).2
  | OpRetrieve rid => Some (getInfoResult now rid tm).2
  | OpMerge rid delta =>
      match setInfoResults rid delta tm with
      | Ok tm' => Some tm'
      | Raise _ => None
      end
  end.

(** The reading of the design document: each of the three operations
    moves the timestamp to [now] plus the purge window. *)
Definition documented_refresh (now : Z) (op : cache_op) (tm : ThreadManager)
    : Prop :=
  forall tm', apply_op now op tm = Some tm' ->
              timestamp tm' = now + purge_window.

(** The manager after the workers have merged the results [ms] one
    after the other; a merge that raises leaves the manager as it is. *)
Fixpoint merges (ms : list (Z * gmap string Info)) (tm : ThreadManager)
    : ThreadManager :=
  match ms with
  | [] => tm
  | (rid, delta) :: ms' =>
      match setInfoResults rid delta tm with
      | Ok tm' => merges ms' tm'
      | Raise _ => merges ms' tm
      end
  end.

(** What happens to the cache over time: one of the three operations, or
    the expiry step of a tick. *)
Inductive cache_event : Type :=
| CacheOp (op : cache_op)
| CacheTick.

(** The number of [createResultThread] calls in a trace. *)
Fixpoint creations (trace : list (Z * cache_event)) : nat :=
  match trace with
  | [] => O
  | (_, CacheOp OpCreate) :: trace' => S (creations trace')
  | _ :: trace' => creations trace'
  end.

(** The manager after the events of [trace], each with the clock reading
    at which it happens, and the result ids that the
    [createResultThread] calls among them returned, in order.  A merge
    that raises leaves the manager as it is. *)
Fixpoint issued_ids (trace : list (Z * cache_event)) (tm : ThreadManager)
    : list Z * ThreadManager :=
  match trace with
  | [] => ([], tm)
  | (now, ev) :: trace' =>
      match ev with
      | CacheOp OpCreate =>
          let '(rid, tm') := createResultThread now tm in
          let '(rids, tm'') := issued_ids trace' tm' in
          (rid :: rids, tm'')
      | CacheOp (OpRetrieve rid) => issued_ids trace' (getInfoResult now rid tm).2
      | CacheOp (OpMerge rid delta) =>
          match setInfoResults rid delta tm with
          | Ok tm' => issued_ids trace' tm'
          | Raise _ => issued_ids trace' tm
          end
      | CacheTick => issued_ids trace' (expire now tm).1
      end
  end.

End Cache.

Arguments mkThreadManager {Info}.
Arguments infoCache {Info}.
Arguments resultIDs {Info}.
Arguments infoResults {Info}.
Arguments timestamp {Info}.
Arguments ThreadManager_init {Info}.
Arguments with_timestamp {Info}.
Arguments with_infoResults {Info}.
Arguments createResultThread {Info}.
Arguments getInfoResult {Info}.
Arguments setInfoResults {Info}.
Arguments expire {Info}.
Arguments run {Info World}.
Arguments after_reconnect {World}.
Arguments reconnect_events {World}.
Arguments expiry_due {Info}.
Arguments bucket_of {Info}.
Arguments OpCreate {Info}.
Arguments OpRetrieve {Info}.
Arguments OpMerge {Info}.
Arguments apply_op {Info}.
Arguments documented_refresh {Info}.
Arguments CacheOp {Info}.
Arguments CacheTick {Info}.
Arguments issued_ids {Info}.
Arguments creations {Info}.
Arguments merges {Info}.

(** *** The pool of download threads *)

(** Modelled from the spec: the plugin of a file and the file itself
    ([PyFile]), which are declared outside the files modelled here, with
    the attributes that [ThreadManager] reads.  [pl_account] is [None]
    without an account; with one it holds the entry ["limitDL"] of the
    account's options, [None] if the options lack it.  [pf_plugin] is
    [None] while no plugin is instantiated, which is what [hasPlugin()]
    tells. *)
Record Plugin : Type := mkPlugin {
  pl_multiDL : bool;
  pl_account : option (option (list string))
}.

Record PyFile : Type := mkPyFile {
  pf_id : Z;
  pf_pluginname : string;
  pf_plugin : option Plugin
}.

(** What is put into the inbox of a thread. *)
Inductive message : Type :=
| MsgQuit
| MsgJob (job : PyFile).

(** Modelled from the spec: a worker slot ([DownloadThread], declared
    outside the files modelled here) is idle or runs one file, and has
    an inbox; [th_active] is the attribute [active], [None] when the
    thread is idle. *)
Record DownloadThread : Type := mkDownloadThread {
  th_active : option PyFile;
  th_inbox : list message
}.

(** Modelled from the spec: a slot is idle when it is created. *)
Definition DownloadThread_init : DownloadThread :=
  {| th_active := None; th_inbox := [] |}.

(** [thread.put(msg)] *)
Definition put (msg : message) (th : DownloadThread) : DownloadThread :=
  {| th_active := th_active th; th_inbox := th_inbox th ++ [msg] |}.

(** [createThread()]: [self.threads.append(DownloadThread(self))] *)
Definition createThread (threads : list DownloadThread) : list DownloadThread :=
  threads ++ [DownloadThread_init].

(** [free[0].put("quit")] for [free = [x for x in threads if not
    x.active]], if [free] is not empty: the first idle thread of the
    list gets the message. *)
Fixpoint quit_first_free (threads : list DownloadThread) : list DownloadThread :=
  match threads with
  | [] => []
  | th :: threads' =>
      match th_active th with
      | None => put MsgQuit th :: threads'
      | Some _ => th :: quit_first_free threads'
      end
  end.

(** [checkThreadCount()], [max_downloads] being the value of that
    option: the threads afterwards, and whether [True] was returned. *)
Definition checkThreadCount (max_downloads : Z) (threads : list DownloadThread)
    : list DownloadThread * bool :=
  let n := Z.of_nat (List.length threads) in
  if n =? max_downloads then (threads, true)
  else if n <? max_downloads then (createThread threads, false)
  else (quit_first_free threads, false).

(** [getActiveFiles()]: the files of the download threads that run
    one, then those that the local threads report. *)
Definition getActiveFiles (threads : list DownloadThread)
    (localThreads : list (list PyFile)) : list PyFile :=
  omap th_active threads ++ concat localThreads.

(** [processingIds()] *)
Definition processingIds (threads : list DownloadThread)
    (localThreads : list (list PyFile)) : list Z :=
  pf_id <$> getActiveFiles threads localThreads.

(** [getLimit(thread)] for the ["limitDL"] entry of the account of the
    thread's plugin:
    [int(options.get("limitDL", ["0"])[0])] *)
Definition getLimit (limitDL : option (list string)) : result Z :=
  limit <-! index (default ["0"] limitDL) 0 ;;
  int_of_str limit.

(** The files that the threads run. *)
Definition running (threads : list DownloadThread) : list PyFile :=
  omap th_active threads.

(** [len([y for y in self.threads if y.active and y.active.pluginname
    == name])] *)
Definition running_count (name : string) (threads : list DownloadThread) : Z :=
  Z.of_nat (List.length
              (filter (fun f => pf_pluginname f = name) (running threads))).

(** The first list of [assignJob]: [(pluginname, getLimit(x))] for the
    threads that run a file with a plugin that has an account.  The
    first limit that is no number ends it with that exception. *)
Fixpoint inuse_pairs (files : list PyFile) : result (list (string * Z)) :=
  match files with
  | [] => Ok []
  | f :: files' =>
      match pf_plugin f with
      | Some {| pl_account := Some limitDL |} =>
          limit <-! getLimit limitDL ;;
          rest <-! inuse_pairs files' ;;
          Ok ((pf_pluginname f, limit) :: rest)
      | _ => inuse_pairs files'
      end
  end.

(** The names of the plugins of running files that do not allow
    several downloads at once. *)
Definition single_download (files : list PyFile) : list string :=
  omap (fun f => match pf_plugin f with
                 | Some p => if pl_multiDL p then None else Some (pf_pluginname f)
                 | None => None
                 end) files.

(** The value of [occ] that [assignJob] passes to [files.getJob]: the
    plugins that must not get another job now.  [inuse] is the set of
    the pairs above, [onlimit] the names among them whose limit is
    positive and reached by the number of running files of that
    plugin; [occ] is the set of the single-download plugins and of
    [onlimit]. *)
Definition assignJob_occ (threads : list DownloadThread) : result (gset string) :=
  pairs <-! inuse_pairs (running threads) ;;
  let inuse : gset (string * Z) := list_to_set pairs in
  let onlimit :=
    (filter (fun x : string * Z =>
               0 < x.2 /\ x.2 <= running_count x.1 threads)
            (elements inuse)).*1 in
  Ok (list_to_set (single_download (running threads) ++ onlimit)).

End ThreadMgr.

(** ** api/__init__.py *)

Module Api.

Import ThreadMgr.

Section PollResults.

Variable Info : Type.

(** The [OnlineCheck] that the RPC layer hands out. *)
Record OnlineCheck : Type := mkOnlineCheck {
  oc_rid : Z;
  oc_data : gmap string Info
}.

(** [pollResults(rid)], the clock reading [now]: the [OnlineCheck] and
    the thread manager after the call. *)
Definition pollResults (now : Z) (rid : Z) (tm : ThreadManager Info)
    : OnlineCheck * ThreadManager Info :=
  let '(result_, tm) := getInfoResult now rid tm in
  if bool_decide (is_Some (result_ !! ALL_INFO_FETCHED)) then
    (mkOnlineCheck (-1) (delete ALL_INFO_FETCHED result_), tm)
  else
    (mkOnlineCheck rid result_, tm).

(** The reading of the design document: the result id handed out is
    [-1] exactly when the stored bucket held the sentinel. *)
Definition documented_sentinel (now rid : Z) (tm : ThreadManager Info) : Prop :=
  oc_rid (pollResults now rid tm).1 = -1
  <-> is_Some (bucket_of rid tm !! ALL_INFO_FETCHED).

End PollResults.

Arguments mkOnlineCheck {Info}.
Arguments oc_rid {Info}.
Arguments oc_data {Info}.
Arguments pollResults {Info}.
Arguments documented_sentinel {Info}.

Section CaptchaApi.

Import Captcha.

(** [json.dumps] on the parameters of a captcha. *)
Variable json_dumps : string -> string.

(** Modelled from the spec: the datatype [CaptchaTask] of the RPC layer,
    which is declared outside the files modelled here.  Its wire shape
    is (id, data, type, result-type), and the id [-1] with nothing else
    set says that no task is available. *)
Record WireCaptchaTask : Type := mkWireCaptchaTask {
  wt_tid : Z;
  wt_data : option string;
  wt_type : option string;
  wt_resultType : option string
}.

(** What the captcha methods of the API work on: the captcha manager
    and the attribute [lastClientConnected] of the core. *)
Record CaptchaCore : Type := mkCaptchaCore {
  captchaManager : CaptchaManager;
  lastClientConnected : Z
}.

(** [isCaptchaWaiting()], the clock reading [now] *)
Definition isCaptchaWaiting (now : Z) (core : CaptchaCore) : CaptchaCore * bool :=
  let core := mkCaptchaCore (captchaManager core) now in
  (core,
   match getTask (captchaManager core) with
   | Some _ => true
   | None => false
   end).

(** [getCaptchaTask(exclusive)], the clock reading [now] *)
Definition getCaptchaTask (now : Z) (exclusive : bool) (core : CaptchaCore)
    : CaptchaCore * result WireCaptchaTask :=
  let m := captchaManager core in
  match getTask m with
  | Some task =>
      let m := set_task task (setWatingForUser exclusive (heap m task)) m in
      let '(data, type, result_) := getCaptcha (heap m task) in
      (mkCaptchaCore m now,
       tid <-! int_of_str (ct_id (heap m task)) ;;
       Ok (mkWireCaptchaTask tid (Some (json_dumps data)) (Some type)
                             (Some result_)))
  | None => (mkCaptchaCore m now, Ok (mkWireCaptchaTask (-1) None None None))
  end.

(** [getCaptchaTaskStatus(tid)], the clock reading [now] *)
Definition getCaptchaTaskStatus (now : Z) (tid : pyval) (core : CaptchaCore)
    : CaptchaCore * string :=
  let m := captchaManager core in
  (mkCaptchaCore m now,
   match getTaskByID tid m with
   | Some t => getStatus (heap m t)
   | None => EmptyString
   end).

End CaptchaApi.

Arguments getCaptchaTask json_dumps now exclusive core : assert.

(** *** Permissions *)

(** [class Perms(IntFlag)] *)
Definition ALL : Z := 0.
Definition ADD : Z := 1.
Definition DELETE : Z := 2.
Definition STATUS : Z := 4.
Definition LIST : Z := 16.
Definition MODIFY : Z := 32.
Definition DOWNLOAD : Z := 64.
Definition SETTINGS : Z := 128.
Definition ACCOUNTS : Z := 256.
Definition LOGS : Z := 512.

(** [class Role(IntFlag)] *)
Definition ADMIN : Z := 0.
Definition USER : Z := 1.

(** [has_permission(userperms, perms)]: [perms == (userperms & perms)] *)
Definition has_permission (userperms perms : Z) : bool :=
  perms =? Z.land userperms perms.

(** [permMap] as the [@permission] decorators fill it when the class
    body is read: method name to permission bits, in source order. *)
Definition permMap_entries : list (string * Z) :=
  [
    ("getConfigValue", SETTINGS); ("setConfigValue", SETTINGS);
    ("getConfig", SETTINGS); ("getPluginConfig", SETTINGS);
    ("pauseServer", STATUS); ("unpauseServer", STATUS);
    ("togglePause", STATUS); ("toggleReconnect", STATUS);
    ("statusServer", LIST); ("freeSpace", STATUS); ("getServerVersion", ALL);
    ("getLog", LOGS); ("isTimeDownload", STATUS);
    ("isTimeReconnect", STATUS); ("statusDownloads", LIST);
    ("addPackage", ADD); ("parseURLs", ADD); ("checkURLs", ADD);
    ("checkOnlineStatus", ADD); ("checkOnlineStatusContainer", ADD);
    ("pollResults", ADD); ("generatePackages", ADD);
    ("generateAndAddPackages", ADD); ("checkAndAddPackages", ADD);
    ("getPackageData", LIST); ("getPackageInfo", LIST);
    ("getFileData", LIST); ("deleteFiles", DELETE);
    ("deletePackages", DELETE); ("getQueue", LIST); ("getQueueData", LIST);
    ("getCollector", LIST); ("getCollectorData", LIST); ("addFiles", ADD);
    ("pushToQueue", MODIFY); ("pullFromQueue", MODIFY);
    ("restartPackage", MODIFY); ("restartFile", MODIFY);
    ("recheckPackage", MODIFY); ("stopAllDownloads", MODIFY);
    ("stopDownloads", MODIFY); ("setPackageName", MODIFY);
    ("movePackage", MODIFY); ("moveFiles", MODIFY); ("uploadContainer", ADD);
    ("orderPackage", MODIFY); ("orderFile", MODIFY);
    ("setPackageData", MODIFY); ("deleteFinished", DELETE);
    ("restartFailed", MODIFY); ("getPackageOrder", LIST);
    ("getFileOrder", LIST); ("isCaptchaWaiting", STATUS);
    ("getCaptchaTask", STATUS); ("getCaptchaTaskStatus", STATUS);
    ("setCaptchaResult", STATUS); ("getEvents", STATUS);
    ("getAccounts", ACCOUNTS); ("getAccountTypes", ALL);
    ("updateAccount", ACCOUNTS); ("removeAccount", ACCOUNTS); ("login", ALL);
    ("getUserData", ALL); ("get_userdata", ALL); ("getServices", STATUS);
    ("hasService", STATUS); ("call", STATUS); ("getAllInfo", STATUS);
    ("getInfoByPlugin", STATUS)
  ].

Definition permMap : gmap string Z := list_to_map permMap_entries.

(** The entries of [userdata] that [isAuthorized] reads. *)
Record UserData : Type := mkUserData {
  ud_role : Z;
  ud_permission : Z
}.

(** [isAuthorized(func, userdata)] *)
Definition isAuthorized (func : string) (userdata : UserData) : bool :=
  if ud_role userdata =? ADMIN then true
  else
    match permMap !! func with
    | Some bits => if has_permission (ud_permission userdata) bits then true
                   else false
    | None => false
    end.

(** *** Grouping urls by plugin *)

(** [checkURLs(urls)] on the pairs [(url, plugin)] that
    [pluginManager.parseUrls(urls)] returned. *)
Definition checkURLs (data : list (string * string)) : gmap string (list string) :=
  fold_left
    (fun plugins '(url, plugin) =>
       match plugins !! plugin with
       | Some l => <[plugin := l ++ [url]]> plugins
       | None => <[plugin := [url]]> plugins
       end)
    data ∅.

(** *** Order of packages and files *)

(** [while order in d.keys(): order += 1], run for at most [fuel]
    rounds: the first key from [order] on that [d] does not hold. *)
Fixpoint first_free (fuel : nat) (d : gmap Z Z) (order : Z) : Z :=
  match fuel with
  | O => order
  | S fuel' =>
      if bool_decide (is_Some (d !! order)) then first_free fuel' d (order + 1)
      else order
  end.

(** The loop of [getFileOrder] over the [(order, id)] entries of
    [rawData["links"]], and of [getPackageOrder] over those of the
    packages: each id goes under its order, moved up to the next free
    key if that one is taken.  The [while] loop gets one round more
    than [order] has keys. *)
Definition order_loop (entries : list (Z * Z)) : gmap Z Z :=
  fold_left
    (fun order '(o, id) => <[first_free (S (size order)) order o := id]> order)
    entries ∅.

(** *** The folder of a new package *)

(** [s.replace(old, new)] for a non-empty [old]: the occurrences of
    [old] are replaced from the left, without overlap.  [skipn] counts
    the characters of a replaced occurrence still to be passed over. *)
Fixpoint replace_go (old new : string) (skipn : nat) (s : string) : string :=
  match s with
  | EmptyString => EmptyString
  | String c r =>
      match skipn with
      | S k => replace_go old new k r
      | O =>
          if String.prefix old s
          then new +:+ replace_go old new (Nat.pred (String.length old)) r
          else String c (replace_go old new O r)
      end
  end.

(** For an empty [old], [new] is put before every character and at the
    end. *)
Fixpoint replace_empty (new s : string) : string :=
  match s with
  | EmptyString => new
  | String c r => new +:+ String c (replace_empty new r)
  end.

Definition replace (old new s : string) : string :=
  match old with
  | EmptyString => replace_empty new s
  | String _ _ => replace_go old new O s
  end.

(** The folder that [addPackage(name, links, dest)] passes to
    [files.addPackage], [folder_per_package] being the value of that
    option in the configuration. *)
Definition addPackage_folder (folder_per_package : bool) (name : string) : string :=
  let folder := if folder_per_package then name else EmptyString in
  replace (String "092" EmptyString) "_"
    (replace "/" "_" (replace ":" EmptyString (replace "http://" EmptyString folder))).

(** The methods of [Api] that carry no [@permission] decorator. *)
Definition undecorated : list string :=
  ["getConfigDict"; "getPluginConfigDict"; "kill"; "restart"; "checkAuth";
   "isAuthorized"; "get_userdir"; "get_cachedir"; "getAllUserData";
   "get_all_userdata"; "changePassword"; "setUserPermission"].

(** The methods decorated with [Perms.ALL]. *)
Definition open_to_all : list string :=
  ["getServerVersion"; "getAccountTypes"; "login"; "getUserData"; "get_userdata"].

(** The urls of [data] that belong to [plugin], in the order of [data]. *)
Definition urls_of (plugin : string) (data : list (string * string)) : list string :=
  (filter (fun e : string * string => e.2 = plugin) data).*1.

(** No [":"], ["/"] or backslash. *)
Definition path_safe (c : ascii) : bool :=
  negb (Ascii.eqb c ":") && negb (Ascii.eqb c "/") && negb (Ascii.eqb c "092").

End Api.

(** ** States and environments used as examples *)

Module Examples.

Import HTTPChunk Captcha ThreadMgr.

(** An operating system as plain as can be: every path names the file
    of that name and nothing is refused, but for a path that holds a
    NUL character, which [open] refuses with [ValueError] everywhere. *)
Definition plain_os (path : string) : path_status :=
  if all_chars (fun c => negb (Ascii.eqb c "000")) path
  then File path None None None
  else NoPath ValueError.

(** As [plain_os], with the current directory written out or not:
    ["./f"] names the file ["f"]. *)
Definition dot_os (path : string) : path_status :=
  plain_os (if startswith "./" path then skip 2 path else path).

(** No addon plugin is active and no client is connected. *)
Definition no_solver_env : CaptchaEnv :=
  {| isClientConnected := false; activePlugins := []; gettext := fun s => s |}.

(** A plugin has created its first task. *)
Definition first_task : ref * CaptchaManager :=
  newTask "png" "" "textual" CaptchaManager_init.

(** The first task after its [waitUntil] was given a number from
    outside, as a plugin may do before it submits the task. *)
Definition no_solver_waiting : ref * CaptchaManager :=
  (first_task.1,
   set_task first_task.1
            {| ct_id := "0"; ct_captchaParams := ""; ct_captchaFormat := "png";
               ct_captchaResultType := "textual"; ct_handler := [];
               ct_result := None; ct_waitUntil := Some 0; ct_error := None;
               ct_status := "init"; ct_data := ∅ |}
            first_task.2).

(** A probe with result id 0 was created at time 0 and its worker (the
    [InfoThread], which is not among the files modelled here) has set up
    its bucket [infoResults[0]]. *)
Definition probe_running : ThreadManager unit :=
  with_infoResults {[ 0 := ∅ ]} (createResultThread 0 ThreadManager_init).2.

Definition probe_delta : gmap string unit := {[ "http://example.org/f" := tt ]}.

(** A core in which [assignJob] raises once and then returns: the state
    counts the calls. *)
Definition flaky_assignJob (calls : nat) : nat * option exn :=
  (S calls, match calls with O => Some ValueError | S _ => None end).

(** A core in which [assignJob] raises every time. *)
Definition failing_assignJob (calls : nat) : nat * option exn :=
  (S calls, Some ValueError).

Definition quiet (calls : nat) : nat * option exn := (calls, None).

(** The cache holds one bucket and its timestamp is 300. *)
Definition stale_cache : ThreadManager unit :=
  with_infoResults {[ 0 := probe_delta ]} probe_running.

(** The probe with id 0 has delivered one result and the sentinel. *)
Definition probe_finished : ThreadManager unit :=
  with_infoResults
    {[ 0 := {[ "http://example.org/f" := tt; ALL_INFO_FETCHED := tt ]} ]}
    probe_running.

(** A client is connected, no addon plugin is active. *)
Definition client_env : CaptchaEnv :=
  {| isClientConnected := true; activePlugins := []; gettext := fun s => s |}.

(** The first task, submitted at time 1000 with a client connected: it
    is enqueued and waits. *)
Definition first_task_enqueued : CaptchaManager :=
  (handleCaptcha client_env 1000 no_solver_waiting.1 30 no_solver_waiting.2).1.

(** A textual and a positional task. *)
Definition positional_task : CaptchaTask :=
  CaptchaTask_init (PInt 1) "png" "" "positional".

(** Two threads run files of the plugin ["HosterA"], whose account
    allows two downloads at a time; a third thread is idle. *)
Definition limited_pool : list ThreadMgr.DownloadThread :=
  let plugin := ThreadMgr.mkPlugin true (Some (Some ["2"])) in
  [ThreadMgr.mkDownloadThread
     (Some (ThreadMgr.mkPyFile 1 "HosterA" (Some plugin))) [];
   ThreadMgr.DownloadThread_init;
   ThreadMgr.mkDownloadThread
     (Some (ThreadMgr.mkPyFile 2 "HosterA" (Some plugin))) []].

(** One thread runs a file whose account has the option
    [limitDL = ["many"]]. *)
Definition unreadable_limit_pool : list ThreadMgr.DownloadThread :=
  [ThreadMgr.mkDownloadThread
     (Some (ThreadMgr.mkPyFile 1 "HosterA"
              (Some (ThreadMgr.mkPlugin true (Some (Some ["many"])))))) []].

End Examples.

(** ** Tactics *)

(** Evaluate [digit_val] on the characters that are given. *)
Ltac eval_digit :=
  repeat match goal with
         | |- context [digit_val ?c] =>
             let v := eval vm_compute in (digit_val c) in
             change (digit_val c) with v
         end; cbv beta iota.

(** * Properties *)

(** ** The definitions at work *)

Section Evaluations.

Import HTTPChunk Captcha ThreadMgr Api Examples.

Example createChunks_10_by_2 :
  createChunks 2 (with_size 10 (init "f"))
  = Ok (with_chunks [("f.chunk0", (0, 5)); ("f.chunk1", (6, 9))]
                    (with_size 10 (init "f"))).
Proof. reflexivity. Qed.

Example createChunks_3_by_3 :
  createChunks 3 (with_size 3 (init "f"))
  = Ok (with_chunks
          [("f.chunk0", (0, 1)); ("f.chunk1", (2, 3)); ("f.chunk2", (4, 2))]
          (with_size 3 (init "f"))).
Proof. reflexivity. Qed.

Example createChunks_by_0 :
  createChunks 0 (with_size 10 (init "f")) = Raise ZeroDivisionError.
Proof. reflexivity. Qed.

Example int_of_str_cases :
  int_of_str " 1_000 " = Ok 1000 /\ int_of_str "-12" = Ok (-12) /\
  int_of_str "+007" = Ok 7 /\ int_of_str "" = Raise ValueError /\
  int_of_str "1__0" = Raise ValueError /\ int_of_str "1_" = Raise ValueError /\
  int_of_str "- 1" = Raise ValueError.
Proof. repeat split; reflexivity. Qed.

Example split_cases :
  split "-" "0-5" = ["0"; "5"] /\ split "-" "0--1" = ["0"; ""; "1"] /\
  split "-" "-5-3" = [""; "5"; "3"] /\ split "-" "" = [""].
Proof. repeat split; reflexivity. Qed.

Example readlines_universal_newlines :
  readlines ("a" +:+ String CR (String LF ("b" +:+ String CR
             ("c" +:+ String LF "d"))))
  = ["a" +:+ String LF ""; "b" +:+ String LF ""; "c" +:+ String LF ""; "d"].
Proof. reflexivity. Qed.

Example sidecar_text_two_chunks :
  sidecar_text (with_chunks [("f.chunk0", (0, 5)); ("f.chunk1", (6, 9))]
                            (with_size 10 (init "f")))
  = "name:f" +:+ String LF
    ("size:10" +:+ String LF
    ("#0:" +:+ String LF
    (String "009" "name:f.chunk0" +:+ String LF
    (String "009" "range:0-5" +:+ String LF
    ("#1:" +:+ String LF
    (String "009" "name:f.chunk1" +:+ String LF
    (String "009" "range:6-9" +:+ String LF ""))))))).
Proof. reflexivity. Qed.

Example int_of_str_white_space :
  int_of_str (String "009" ("10" +:+ String LF "")) = Ok 10 /\
  int_of_str (String "160" "10") = Ok 10 /\
  int_of_str (String "028" "10") = Raise ValueError /\
  int_of_str ("1" +:+ String "160" "0") = Raise ValueError.
Proof. repeat split; reflexivity. Qed.

Example load_missing_sidecar : load plain_os "f" ∅ = Raise IOError.
Proof. reflexivity. Qed.

Example load_malformed_sidecar :
  load plain_os "f" {[ "f.chunks" := "size:10" +:+ String LF "" ]}
  = Raise WrongFormat.
Proof. vm_compute. reflexivity. Qed.

(** A name with a NUL character: [save] raises, [load] finds nothing. *)
Example save_refused_path :
  save plain_os (init (String "a" (String "000" "b"))) ∅ = Raise ValueError /\
  load plain_os (String "a" (String "000" "b")) ∅ = Raise IOError.
Proof. split; reflexivity. Qed.

(** Two spellings of one path: what was saved as ["f"] is loaded as
    ["./f"], and removing it under one name removes it under the other. *)
Example one_file_two_spellings :
  exists fs fs',
    save dot_os (with_size 10 (init "f")) ∅ = Ok fs /\
    load dot_os "./f" fs = load dot_os "f" fs /\
    (exists ci, load dot_os "./f" fs = Ok ci /\ ci_size ci = 10) /\
    remove dot_os (init "./f") fs = Ok fs' /\
    load dot_os "f" fs' = Raise IOError.
Proof.
  do 2 eexists. split; [reflexivity|]. split; [vm_compute; reflexivity|].
  split; [eexists; split; vm_compute; reflexivity|].
  split; vm_compute; reflexivity.
Qed.

(** With a client connected the task that waits is enqueued. *)
Example handleCaptcha_client_connected :
  let env := {| isClientConnected := true; activePlugins := [];
                gettext := fun s => s |} in
  let res := handleCaptcha env 1000 no_solver_waiting.1 30 no_solver_waiting.2 in
  res.2 = Ok true /\ tasks res.1 = [no_solver_waiting.1] /\
  getTaskByID (PInt 0) res.1 = Some no_solver_waiting.1 /\
  ct_waitUntil (heap res.1 no_solver_waiting.1) = Some 1030 /\
  getTask res.1 = Some no_solver_waiting.1.
Proof. repeat split; reflexivity. Qed.

(** With neither handler nor client it is dropped with an error. *)
Example handleCaptcha_nobody :
  let res := handleCaptcha no_solver_env 1000 no_solver_waiting.1 30
                           no_solver_waiting.2 in
  res.2 = Ok false /\ tasks res.1 = [] /\
  ct_error (heap res.1 no_solver_waiting.1) = Some no_client_message /\
  getTask res.1 = None.
Proof. repeat split; reflexivity. Qed.

Example pollResults_finished_probe :
  (pollResults 10 0 probe_finished).1
  = mkOnlineCheck (-1) {[ "http://example.org/f" := tt ]}.
Proof. vm_compute. reflexivity. Qed.

Example pollResults_unknown_rid :
  (pollResults 10 7 probe_finished).1 = mkOnlineCheck 7 ∅.
Proof. vm_compute. reflexivity. Qed.

End Evaluations.

(** ** Chunk layout *)

Section ChunkLayout.

Import HTTPChunk.

Lemma createChunks_loop_unfold K cs todo : forall i current ci,
  createChunks_loop K cs todo i current ci
  = with_chunks (ci_chunks ci ++ map (loop_entry ci K cs i current) (seq 0 todo)) ci.
Proof.
  induction todo as [|todo IH]; intros i current ci.
  - simpl. rewrite app_nil_r. by destruct ci.
  - cbn [createChunks_loop]. rewrite IH.
    unfold addChunk, with_chunks; cbn [ci_name ci_size ci_resume ci_chunks ci_loaded].
    f_equal. rewrite <- app_assoc. f_equal.
    cbn [seq map app]. f_equal.
    + unfold loop_entry. rewrite Z.add_0_r. cbn [Z.of_nat]. rewrite Z.mul_0_l, !Z.add_0_r.
      reflexivity.
    + rewrite <- seq_shift, map_map. apply map_ext. intros j.
      unfold loop_entry; cbn [ci_name ci_size].
      rewrite Nat2Z.inj_succ.
      replace (i + 1 + Z.of_nat j) with (i + Z.succ (Z.of_nat j)) by lia.
      replace (current + (cs + 1) + Z.of_nat j * (cs + 1))
        with (current + Z.succ (Z.of_nat j) * (cs + 1)) by lia.
      reflexivity.
Qed.

(** [createChunks] in closed form: it returns for every non-zero count,
    keeps name, size and flags, and stores [Z.to_nat K] entries, entry
    [i] being named [<name>.chunk<i>] and ranging over [chunk_range]. *)
Lemma createChunks_closed_form (ci : ChunkInfo) (K : Z) :
  K <> 0 ->
  createChunks K ci
  = Ok (with_chunks
          (map (fun j : nat =>
                  (ci_name ci +:+ ".chunk" +:+ str_of_int (Z.of_nat j),
                   chunk_range (ci_size ci) K (Z.of_nat j)))
               (seq 0 (Z.to_nat K)))
          ci).
Proof.
  intros HK. unfold createChunks.
  destruct (Z.eqb_spec K 0) as [->|_]; [done|].
  rewrite createChunks_loop_unfold. cbn [clear with_chunks ci_chunks ci_name ci_size app].
  reflexivity.
Qed.

Lemma createChunks_lookup (ci : ChunkInfo) (K i : Z) :
  0 <= i < K ->
  exists ci',
    createChunks K ci = Ok ci' /\
    ci_name ci' = ci_name ci /\ ci_size ci' = ci_size ci /\
    List.length (ci_chunks ci') = Z.to_nat K /\
    ci_chunks ci' !! Z.to_nat i
    = Some (ci_name ci +:+ ".chunk" +:+ str_of_int i,
            chunk_range (ci_size ci) K i).
Proof.
  intros Hi. eexists. split; [apply createChunks_closed_form; lia|].
  cbn [with_chunks ci_name ci_size ci_chunks].
  split; [done|]. split; [done|].
  split; [by rewrite length_map, length_seq|].
  rewrite list_lookup_fmap, lookup_seq_lt by lia.
  cbn. by rewrite Z2Nat.id by lia.
Qed.

End ChunkLayout.

Section ChunkLayoutClaims.

Import HTTPChunk.




(** C2.  For a size [S > 0] and a count [K >= 1] the ranges stored by
    [createChunks(K)] cover [[0, S)] without a gap: every offset below
    [S] lies in a chunk, the first chunk starts at offset 0 and holds
    it, every later chunk starts one byte after its predecessor ends,
    and the last chunk ends at [S - 1]. *)
Theorem createChunks_covers (ci : ChunkInfo) (K : Z) :
  0 < ci_size ci -> 1 <= K ->
  exists ci',
    createChunks K ci = Ok ci' /\
    (forall x, 0 <= x < ci_size ci ->
       exists i nm lo hi,
         ci_chunks ci' !! i = Some (nm, (lo, hi)) /\ lo <= x <= hi) /\
    (exists nm hi, ci_chunks ci' !! O = Some (nm, (0, hi)) /\ 0 <= hi) /\
    (forall i nm lo hi nm' lo' hi',
       ci_chunks ci' !! i = Some (nm, (lo, hi)) ->
       ci_chunks ci' !! S i = Some (nm', (lo', hi')) ->
       lo' = hi + 1) /\
    (exists nm lo,
       ci_chunks ci' !! Z.to_nat (K - 1) = Some (nm, (lo, ci_size ci - 1))).
Proof.
  intros HS HK.
  set (c := ci_size ci / K).
  assert (Hc : 0 <= c) by (apply Z.div_pos; lia).
  destruct (createChunks_lookup ci K 0) as (ci' & Hrun & _ & _ & Hlen & H0); [lia|].
  assert (Hget : forall i, 0 <= i < K ->
            ci_chunks ci' !! Z.to_nat i
            = Some (ci_name ci +:+ ".chunk" +:+ str_of_int i,
                    chunk_range (ci_size ci) K i)).
  { intros i Hi.
    destruct (createChunks_lookup ci K i) as (ci2 & Hrun2 & _ & _ & _ & Hi2); [lia|].
    rewrite Hrun in Hrun2. by injection Hrun2 as <-. }
  exists ci'. split; [done|]. repeat split.
  - intros x Hx.
    destruct (Z_lt_le_dec x ((K - 1) * (c + 1))) as [Hlt|Hge].
    + set (i := x / (c + 1)).
      assert (Hi : 0 <= i < K - 1).
      { split; [apply Z.div_pos; lia|].
        apply Z.div_lt_upper_bound; lia. }
      pose proof (Z.div_mod x (c + 1) ltac:(lia)) as Hdm.
      pose proof (Z.mod_pos_bound x (c + 1) ltac:(lia)) as Hmod.
      fold i in Hdm.
      eexists (Z.to_nat i), _, _, _. split.
      * rewrite Hget by lia. unfold chunk_range.
        destruct (Z.eqb_spec i (K - 1)); [lia|]. reflexivity.
      * fold c. lia.
    + eexists (Z.to_nat (K - 1)), _, _, _. split.
      * rewrite Hget by lia. unfold chunk_range. rewrite Z.eqb_refl. reflexivity.
      * fold c. lia.
  - change O with (Z.to_nat 0). rewrite Hget by lia.
    unfold chunk_range. fold c.
    destruct (Z.eqb_spec 0 (K - 1)); eexists _, _; (split; [reflexivity|lia]).
  - intros i nm lo hi nm' lo' hi' Hi HSi.
    assert (Hlt : (S i < Z.to_nat K)%nat).
    { rewrite <- Hlen. by eapply lookup_lt_Some. }
    rewrite <- (Nat2Z.id i), Hget in Hi by lia.
    rewrite <- (Nat2Z.id (S i)), Hget in HSi by lia.
    unfold chunk_range in Hi, HSi. fold c in Hi, HSi.
    destruct (Z.eqb_spec (Z.of_nat i) (K - 1)); [lia|].
    injection Hi as _ _ <-. injection HSi as _ <- _. lia.
  - rewrite Hget by lia. unfold chunk_range. rewrite Z.eqb_refl.
    by eexists _, _.
Qed.

Lemma createChunks_covers_witness :
  0 < 10 /\ 1 <= 3 /\
  exists ci',
    createChunks 3 (with_size 10 (init "f")) = Ok ci' /\
    (forall x, 0 <= x < 10 ->
       exists i nm lo hi,
         ci_chunks ci' !! i = Some (nm, (lo, hi)) /\ lo <= x <= hi) /\
    (exists nm hi, ci_chunks ci' !! O = Some (nm, (0, hi)) /\ 0 <= hi) /\
    (forall i nm lo hi nm' lo' hi',
       ci_chunks ci' !! i = Some (nm, (lo, hi)) ->
       ci_chunks ci' !! S i = Some (nm', (lo', hi')) ->
       lo' = hi + 1) /\
    (exists nm lo,
       ci_chunks ci' !! Z.to_nat (3 - 1) = Some (nm, (lo, 10 - 1))).
Proof.
  split; [lia|]. split; [lia|].
  apply (createChunks_covers (with_size 10 (init "f")) 3); cbn; lia.
Defined.

End ChunkLayoutClaims.

(** ** Text lemmas *)

Section TextFacts.

Lemma str_app_cons c s t : String c s +:+ t = String c (s +:+ t).
Proof. reflexivity. Qed.

Lemma str_app_nil_l s : EmptyString +:+ s = s.
Proof. reflexivity. Qed.

Lemma str_app_nil_r s : s +:+ EmptyString = s.
Proof. induction s as [|c s IH]; [done|]. by rewrite str_app_cons, IH. Qed.

Lemma str_app_assoc s t u : (s +:+ t) +:+ u = s +:+ (t +:+ u).
Proof. induction s as [|c s IH]; [done|]. by rewrite !str_app_cons, IH. Qed.

Lemma all_chars_app P s t :
  all_chars P (s +:+ t) = all_chars P s && all_chars P t.
Proof.
  induction s as [|c s IH]; [done|].
  rewrite str_app_cons. cbn [all_chars]. by rewrite IH, andb_assoc.
Qed.

Lemma all_chars_impl (P Q : ascii -> bool) s :
  (forall c, P c = true -> Q c = true) ->
  all_chars P s = true -> all_chars Q s = true.
Proof.
  intros HPQ. induction s as [|c s IH]; [done|]. cbn [all_chars].
  intros [Hc Hs]%andb_true_iff. by rewrite (HPQ _ Hc), IH.
Qed.

Lemma drop_last_snoc s c : drop_last (s +:+ String c EmptyString) = s.
Proof.
  induction s as [|d s IH]; [done|].
  rewrite str_app_cons. cbn [drop_last]. rewrite IH.
  by destruct s.
Qed.

Lemma startswith_app p s : startswith p (p +:+ s) = true.
Proof.
  unfold startswith. induction p as [|c p IH]; [by destruct s|].
  rewrite str_app_cons. cbn [String.prefix].
  by destruct (ascii_dec c c).
Qed.

Lemma skip_app p s : skip (String.length p) (p +:+ s) = s.
Proof. induction p as [|c p IH]; [done|]. by rewrite str_app_cons. Qed.

(** Reading a line that holds no line break and ends in ["\n"]. *)
Lemma readlines_go_line l rest : forall cur,
  no_linebreak l = true ->
  readlines_go cur (l +:+ String LF rest)
  = (cur +:+ l +:+ String LF EmptyString) :: readlines rest.
Proof.
  induction l as [|c l IH]; intros cur Hl.
  - rewrite !str_app_nil_l. reflexivity.
  - cbn [no_linebreak all_chars] in Hl. apply andb_true_iff in Hl as [Hc Hl].
    unfold is_linebreak in Hc. apply negb_true_iff, orb_false_iff in Hc as [HLF HCR].
    rewrite str_app_cons. cbn [readlines_go]. rewrite HLF, HCR.
    rewrite IH by done. by rewrite !str_app_assoc.
Qed.

Lemma readlines_line l rest :
  no_linebreak l = true ->
  readlines (l +:+ String LF rest) = (l +:+ String LF EmptyString) :: readlines rest.
Proof. intros Hl. unfold readlines at 1. by rewrite readlines_go_line. Qed.

(** Splitting at a separator that the first piece does not hold. *)
Lemma split_go_piece sep d rest : forall cur,
  all_chars (fun c => negb (Ascii.eqb c sep)) d = true ->
  split_go sep cur (d +:+ String sep rest)
  = (cur +:+ d) :: split_go sep EmptyString rest.
Proof.
  induction d as [|c d IH]; intros cur Hd.
  - rewrite str_app_nil_l, str_app_nil_r. cbn [split_go]. by rewrite Ascii.eqb_refl.
  - cbn [all_chars] in Hd. apply andb_true_iff in Hd as [Hc Hd].
    apply negb_true_iff in Hc.
    rewrite str_app_cons. cbn [split_go]. rewrite Hc, IH by done.
    by rewrite str_app_assoc.
Qed.

Lemma split_go_last sep d : forall cur,
  all_chars (fun c => negb (Ascii.eqb c sep)) d = true ->
  split_go sep cur d = [cur +:+ d].
Proof.
  induction d as [|c d IH]; intros cur Hd.
  - by rewrite str_app_nil_r.
  - cbn [all_chars] in Hd. apply andb_true_iff in Hd as [Hc Hd].
    apply negb_true_iff in Hc.
    cbn [split_go]. rewrite Hc, IH by done. by rewrite str_app_assoc.
Qed.

Lemma split_two sep d e :
  all_chars (fun c => negb (Ascii.eqb c sep)) d = true ->
  all_chars (fun c => negb (Ascii.eqb c sep)) e = true ->
  split sep (d +:+ String sep e) = [d; e].
Proof.
  intros Hd He. unfold split.
  by rewrite split_go_piece, split_go_last, !str_app_nil_l.
Qed.

End TextFacts.

(** ** Decimal numerals: [int(str(n)) = n] *)

Section DecimalFacts.

Import Decimal.

Lemma lval_of_lu u : forall acc,
  (lval acc u
   = DecimalPos.Unsigned.of_lu (rev u)
     + acc * 10 ^ DecimalPos.Unsigned.usize u)%N.
Proof.
  induction u; intros acc; cbn [lval DecimalPos.Unsigned.usize];
    [cbn; lia | ..];
    rewrite IHu; unfold rev; cbn [revapp];
    rewrite (DecimalPos.Unsigned.of_lu_revapp u (_ Nil));
    cbn [DecimalPos.Unsigned.of_lu]; rewrite N.pow_succ_r';
    change (revapp u Nil) with (rev u); lia.
Qed.

Lemma lval_0 u : Z.of_N (lval 0 u) = Z.of_uint u.
Proof.
  unfold Z.of_uint. f_equal.
  rewrite lval_of_lu, DecimalPos.Unsigned.of_uint_alt. lia.
Qed.

Lemma int_digits_uint u : forall acc,
  int_digits (Z.of_N acc) true (NilEmpty.string_of_uint u)
  = Some (Z.of_N (lval acc u)).
Proof.
  induction u; intros acc; cbn [NilEmpty.string_of_uint int_digits lval];
    [done | ..];
    eval_digit; rewrite <- IHu; f_equal; lia.
Qed.

Lemma int_digits_numeral u :
  u <> Nil ->
  int_digits 0 false (NilEmpty.string_of_uint u) = Some (Z.of_uint u).
Proof.
  intros Hu. rewrite <- lval_0.
  destruct u; [done | ..];
    cbn [NilEmpty.string_of_uint int_digits lval]; eval_digit;
    match goal with
    | |- _ = Some (Z.of_N (lval ?a u)) => exact (int_digits_uint u a)
    end.
Qed.

Lemma uint_all_digits u : all_chars is_digit (NilEmpty.string_of_uint u) = true.
Proof.
  induction u; cbn [NilEmpty.string_of_uint all_chars]; [done | ..];
    by rewrite IHu.
Qed.

End DecimalFacts.

Section IntOfStr.

Import Decimal.

Lemma lstrip_id s :
  all_chars (fun c => negb (int_space c)) s = true -> lstrip s = s.
Proof.
  destruct s as [|c s]; [done|]. cbn [all_chars lstrip].
  intros [Hc _]%andb_true_iff. apply negb_true_iff in Hc. by rewrite Hc.
Qed.

Lemma rstrip_id s :
  all_chars (fun c => negb (int_space c)) s = true -> rstrip s = s.
Proof.
  induction s as [|c s IH]; [done|]. cbn [all_chars rstrip].
  intros [Hc Hs]%andb_true_iff. apply negb_true_iff in Hc.
  rewrite IH by done. destruct s; [by rewrite Hc|done].
Qed.

Lemma strip_id s :
  all_chars (fun c => negb (int_space c)) s = true -> strip s = s.
Proof. intros Hs. unfold strip. by rewrite lstrip_id, rstrip_id. Qed.

Lemma digit_not_space c : is_digit c = true -> negb (int_space c) = true.
Proof. destruct c as [[] [] [] [] [] [] [] []]; vm_compute; done. Qed.

Lemma digit_not_linebreak c : is_digit c = true -> negb (is_linebreak c) = true.
Proof. destruct c as [[] [] [] [] [] [] [] []]; vm_compute; done. Qed.

Lemma digit_not_dash c : is_digit c = true -> negb (Ascii.eqb c "-") = true.
Proof. destruct c as [[] [] [] [] [] [] [] []]; vm_compute; done. Qed.

(** A numeral without sign is read as such. *)
Lemma int_of_str_numeral u :
  u <> Nil ->
  int_of_str (NilEmpty.string_of_uint u) = Ok (Z.of_uint u).
Proof.
  intros Hu. unfold int_of_str.
  rewrite strip_id
    by (eapply all_chars_impl; [apply digit_not_space | apply uint_all_digits]).
  pose proof (int_digits_numeral u Hu) as Hd.
  destruct u; [done | ..]; cbn [NilEmpty.string_of_uint] in *;
    unfold int_of_digits; by rewrite Hd.
Qed.

Lemma int_of_str_neg_numeral u :
  u <> Nil ->
  int_of_str (String "-" (NilEmpty.string_of_uint u)) = Ok (- Z.of_uint u).
Proof.
  intros Hu. unfold int_of_str.
  rewrite strip_id.
  - unfold int_of_digits. by rewrite (int_digits_numeral u Hu).
  - cbn [all_chars]. apply andb_true_iff. split; [done|].
    eapply all_chars_impl; [apply digit_not_space | apply uint_all_digits].
Qed.

(** [int(str(z)) == z] for every integer. *)
Lemma int_of_str_of_int z : int_of_str (str_of_int z) = Ok z.
Proof.
  unfold str_of_int. destruct z as [|p|p]; cbn [Z.to_int NilEmpty.string_of_int].
  - reflexivity.
  - rewrite int_of_str_numeral by apply DecimalPos.Unsigned.to_uint_nonnil.
    unfold Z.of_uint. by rewrite DecimalPos.Unsigned.of_to.
  - rewrite int_of_str_neg_numeral by apply DecimalPos.Unsigned.to_uint_nonnil.
    unfold Z.of_uint. by rewrite DecimalPos.Unsigned.of_to.
Qed.

Lemma str_of_int_digits z : 0 <= z -> all_chars is_digit (str_of_int z) = true.
Proof.
  intros Hz. unfold str_of_int.
  destruct z as [|p|p]; [done | apply uint_all_digits | lia].
Qed.

Lemma str_of_int_no_linebreak z : no_linebreak (str_of_int z) = true.
Proof.
  unfold str_of_int, no_linebreak.
  destruct z as [|p|p]; cbn [Z.to_int NilEmpty.string_of_int all_chars]; [done | ..].
  - eapply all_chars_impl; [apply digit_not_linebreak | apply uint_all_digits].
  - apply andb_true_iff. split; [done|].
    eapply all_chars_impl; [apply digit_not_linebreak | apply uint_all_digits].
Qed.

Lemma no_linebreak_cons c s :
  no_linebreak (String c s) = negb (is_linebreak c) && no_linebreak s.
Proof. reflexivity. Qed.

Lemma no_linebreak_app s t :
  no_linebreak (s +:+ t) = no_linebreak s && no_linebreak t.
Proof. apply all_chars_app. Qed.

End IntOfStr.

(** ** The sidecar file: [save] then [load] *)

Section Sidecar.

Import HTTPChunk.

Local Abbreviation NL := (String LF EmptyString).
Local Abbreviation TAB := ("009"%char).

(** Bring appends into right-nested form with the literals unfolded. *)
Ltac str_norm :=
  repeat first [rewrite str_app_assoc | rewrite str_app_cons
               | rewrite str_app_nil_l].

Lemma readlines_terminated l rest :
  no_linebreak l = true ->
  readlines ((l +:+ NL) +:+ rest) = (l +:+ NL) :: readlines rest.
Proof.
  intros Hl. rewrite str_app_assoc.
  change (NL +:+ rest) with (String LF rest). by apply readlines_line.
Qed.

Lemma indented_line c s : drop_last (skip 1 (String c s +:+ NL)) = s.
Proof. rewrite str_app_cons. cbn [skip]. apply drop_last_snoc. Qed.

Lemma skip_name s : skip 5 ("name:" +:+ s) = s.
Proof. exact (skip_app "name:" s). Qed.

Lemma skip_size s : skip 5 ("size:" +:+ s) = s.
Proof. exact (skip_app "size:" s). Qed.

Lemma skip_range s : skip 6 ("range:" +:+ s) = s.
Proof. exact (skip_app "range:" s). Qed.

Lemma save_chunks_cons i c l :
  save_chunks i (c :: l)
  = (("#" +:+ str_of_int i +:+ ":") +:+ NL)
    +:+ (String TAB ("name:" +:+ c.1) +:+ NL)
    +:+ (String TAB ("range:" +:+ str_of_int c.2.1 +:+ "-" +:+ str_of_int c.2.2)
         +:+ NL)
    +:+ save_chunks (i + 1) l.
Proof.
  cbn [save_chunks]. by str_norm.
Qed.

Lemma load_block_saved nm lo hi ci :
  0 <= lo -> 0 <= hi ->
  load_block (String TAB ("name:" +:+ nm) +:+ NL)
             (String TAB ("range:" +:+ str_of_int lo +:+ "-" +:+ str_of_int hi)
              +:+ NL)
             ci
  = Ok (addChunk nm (lo, hi) ci).
Proof.
  intros Hlo Hhi. unfold load_block.
  rewrite !indented_line.
  rewrite !startswith_app. cbn [andb].
  rewrite skip_name, skip_range.
  change ("-" +:+ str_of_int hi) with (String "-" (str_of_int hi)).
  rewrite split_two
    by (eapply all_chars_impl; [apply digit_not_dash | by apply str_of_int_digits]).
  cbn [index lookup list_lookup rbind].
  by rewrite !int_of_str_of_int.
Qed.



(** [load] of a path that names a regular file that is there and may be
    read. *)
Lemma load_file os name fs key dw du text :
  os (name +:+ ".chunks") = File key None dw du ->
  fs !! key = Some text ->
  load os name fs = load_text text.
Proof.
  intros Hos Hfs. unfold load, path_exists, read_text. rewrite Hos, Hfs.
  by rewrite bool_decide_eq_true_2 by by eexists.
Qed.



End Sidecar.

Section SidecarClaims.

Import HTTPChunk Examples.




End SidecarClaims.

(** ** Captcha broker *)

Section CaptchaFacts.

Import Captcha.

Lemma upd_same r t h : upd r t h r = t.
Proof. unfold upd. by rewrite Nat.eqb_refl. Qed.

Lemma upd_other r r' t h : r' <> r -> upd r t h r' = h r'.
Proof. intros Hne. unfold upd. by apply Nat.eqb_neq in Hne as ->. Qed.

Lemma py_max_number a w : py_max a (Some w) = Ok (Z.max w a).
Proof. unfold py_max. f_equal. destruct (Z.gtb_spec w a); lia. Qed.

(** [setWaiting] on a task whose [waitUntil] is a number. *)
Lemma setWaiting_number now sec t w :
  ct_waitUntil t = Some w ->
  setWaiting now sec t = Ok (with_waiting (Z.max w (now + sec)) t).
Proof. intros Hw. unfold setWaiting. by rewrite Hw, py_max_number. Qed.

(** [setWaiting] on a task whose [waitUntil] is still [None]. *)
Lemma setWaiting_None now sec t :
  ct_waitUntil t = None -> setWaiting now sec t = Raise TypeError.
Proof. intros Hw. unfold setWaiting. by rewrite Hw. Qed.

(** [handleCaptcha] on a task whose [waitUntil] is a number [w]: the
    task goes to the plugins with [waitUntil = max(w, now + timeout)] and
    status ["waiting"]; with a handler attached or a client connected it
    is appended to the task list and the call returns [True]. *)
Lemma handleCaptcha_enqueues env now task timeout m w :
  ct_waitUntil (heap m task) = Some w ->
  nonempty (ct_handler (offered env now timeout w (heap m task)))
  || isClientConnected env = true ->
  handleCaptcha env now task timeout m
  = ({| heap := upd task (offered env now timeout w (heap m task)) (heap m);
        next := next m; tasks := tasks m ++ [task]; ids := ids m |},
     Ok true).
Proof.
  intros Hw Hdec. unfold handleCaptcha.
  rewrite (setWaiting_number _ _ _ _ Hw). fold (offered env now timeout w (heap m task)).
  by rewrite Hdec.
Qed.

(** Otherwise the task is not appended, its [error] is set to the
    translated message, and the call returns [False]. *)
Lemma handleCaptcha_drops env now task timeout m w :
  ct_waitUntil (heap m task) = Some w ->
  nonempty (ct_handler (offered env now timeout w (heap m task)))
  || isClientConnected env = false ->
  handleCaptcha env now task timeout m
  = ({| heap := upd task
                    (with_error (gettext env no_client_message)
                                (offered env now timeout w (heap m task)))
                    (heap m);
        next := next m; tasks := tasks m; ids := ids m |},
     Ok false).
Proof.
  intros Hw Hdec. unfold handleCaptcha.
  rewrite (setWaiting_number _ _ _ _ Hw). fold (offered env now timeout w (heap m task)).
  by rewrite Hdec.
Qed.

(** With no plugin in the way the task ends with
    [waitUntil = max(w, now + timeout)] and status ["waiting"]. *)
Lemma handleCaptcha_sets_waiting env now task timeout m w :
  ct_waitUntil (heap m task) = Some w ->
  activePlugins env = [] ->
  let m' := (handleCaptcha env now task timeout m).1 in
  ct_waitUntil (heap m' task) = Some (Z.max w (now + timeout)) /\
  ct_status (heap m' task) = "waiting".
Proof.
  intros Hw Hpl. unfold handleCaptcha.
  rewrite (setWaiting_number _ _ _ _ Hw), Hpl. cbn [fold_left].
  destruct (nonempty _ || _); cbn [fst heap]; by rewrite upd_same.
Qed.

(** What [handleCaptcha] does to the task list. *)
Lemma handleCaptcha_tasks env now task timeout m :
  tasks (handleCaptcha env now task timeout m).1
  = match (handleCaptcha env now task timeout m).2 with
    | Ok true => tasks m ++ [task]
    | _ => tasks m
    end.
Proof.
  unfold handleCaptcha. destruct (setWaiting _ _ _); [|done].
  by destruct (nonempty _ || _).
Qed.

Lemma list_remove_absent r l : r ∉ l -> list_remove r l = l.
Proof.
  induction l as [|r' l IH]; [done|]. intros Hr. cbn [list_remove].
  apply not_elem_of_cons in Hr as [Hne Hr].
  apply not_eq_sym, Nat.eqb_neq in Hne. by rewrite Hne, IH.
Qed.

Lemma list_remove_NoDup r l : NoDup l -> r ∉ list_remove r l.
Proof.
  induction 1 as [|r' l Hr' Hl IH]; cbn [list_remove]; [set_solver|].
  destruct (Nat.eqb_spec r' r) as [->|Hne]; [done|].
  apply not_elem_of_cons. split; [congruence|done].
Qed.

Lemma removeTask_tasks r m : tasks (removeTask r m) = list_remove r (tasks m).
Proof.
  unfold removeTask. case_bool_decide; [done|]. by rewrite list_remove_absent.
Qed.

(** [getTaskByID] finds the first listed task with the id. *)
Lemma find_first_match {A} (P : A -> bool) (l : list A) (x : A) :
  List.find P l = Some x <->
  exists pre post, l = pre ++ x :: post /\ P x = true /\
                   Forall (fun y => P y = false) pre.
Proof.
  induction l as [|y l IH]; cbn [List.find].
  - split; [done|]. intros (pre & post & Hl & _). by destruct pre.
  - destruct (P y) eqn:Hy.
    + split.
      * intros [= ->]. by exists [], l.
      * intros (pre & post & Hl & Hx & Hpre).
        destruct pre as [|z pre]; cbn in Hl; injection Hl as -> Hl; [done|].
        apply Forall_cons in Hpre as [Hz _]. congruence.
    + rewrite IH. split.
      * intros (pre & post & -> & Hx & Hpre). exists (y :: pre), post.
        split; [done|]. split; [done|]. by constructor.
      * intros (pre & post & Hl & Hx & Hpre).
        destruct pre as [|z pre]; cbn in Hl; injection Hl as -> Hl; [congruence|].
        apply Forall_cons in Hpre as [_ Hpre]. by exists pre, post.
Qed.

Lemma find_list_remove (P : ref -> bool) (r : ref) (l : list ref) :
  P r = false -> List.find P (list_remove r l) = List.find P l.
Proof.
  intros Hr. induction l as [|x l IH]; [done|]. cbn [list_remove].
  destruct (Nat.eqb_spec x r) as [->|Hne].
  - cbn [List.find]. by rewrite Hr.
  - cbn [List.find]. by rewrite IH.
Qed.

Lemma count_occ_list_remove (r x : ref) (l : list ref) :
  count_occ Nat.eq_dec (list_remove r l) x
  = if Nat.eq_dec r x then Nat.pred (count_occ Nat.eq_dec l x)
    else count_occ Nat.eq_dec l x.
Proof.
  induction l as [|y l IH]; [by destruct (Nat.eq_dec r x)|].
  cbn [list_remove]. destruct (Nat.eqb_spec y r) as [->|Hne].
  - cbn [count_occ]. destruct (Nat.eq_dec r x); [done|done].
  - cbn [count_occ]. rewrite IH.
    by destruct (Nat.eq_dec y x) as [->|Hyx], (Nat.eq_dec r x) as [->|Hrx].
Qed.

Lemma find_ext_in {A} (P Q : A -> bool) (l : list A) :
  (forall x, P x = Q x) -> List.find P l = List.find Q l.
Proof. intros HPQ. induction l as [|y l IH]; [done|]. cbn. by rewrite HPQ, IH. Qed.

End CaptchaFacts.

Section CaptchaClaims.

Import Captcha Examples.

(** C3 (the code falls short of it).  A task that [newTask] has just
    created has [waitUntil = None], and [handleCaptcha] on it raises
    [TypeError] out of [max(time.time() + sec, None)]: the manager and
    the task stay as they were, [waitUntil] is not set and the status
    does not become ["waiting"]. *)
Theorem handleCaptcha_fresh_task_raises
    (env : CaptchaEnv) (now timeout : Z) (format params result_type : string)
    (m : CaptchaManager) :
  let task := (newTask format params result_type m).1 in
  let m1 := (newTask format params result_type m).2 in
  ct_waitUntil (heap m1 task) = None /\
  ct_status (heap m1 task) = "init" /\
  handleCaptcha env now task timeout m1 = (m1, Raise TypeError).
Proof.
  cbn [newTask fst snd heap]. rewrite upd_same. cbn [ct_waitUntil ct_status CaptchaTask_init].
  split; [done|]. split; [done|].
  unfold handleCaptcha. cbn [heap]. rewrite upd_same. reflexivity.
Qed.

(** The no-client scenario of the design document on the code: a plugin
    creates a task and submits it, no addon is active, no client is
    connected.  The call raises before the plugins are asked, so
    [task.error] stays [None]; nothing is enqueued. *)
Lemma handleCaptcha_no_client_scenario :
  handleCaptcha no_solver_env 1000 first_task.1 30 first_task.2
  = (first_task.2, Raise TypeError)
  /\ ct_error (heap first_task.2 first_task.1) = None
  /\ tasks first_task.2 = []
  /\ getTask first_task.2 = None.
Proof. repeat split; reflexivity. Qed.

(** C4 (the code falls short of it).  For the task that [newTask] has
    just created, [handleCaptcha] does not get to the decision: the
    call raises [TypeError] in [setWaiting], before the task is offered
    to a plugin.  So it returns neither [True] nor [False]; with a
    client connected or a plugin that would take the task, the task is
    not appended to the list; without any, [task.error] stays [None].
    The decision itself is there and does what is claimed for every
    task whose [waitUntil] is a number already. *)
Theorem handleCaptcha_decision_not_reached
    (env : CaptchaEnv) (now timeout : Z) (format params result_type : string)
    (m : CaptchaManager) :
  let task := (newTask format params result_type m).1 in
  let m1 := (newTask format params result_type m).2 in
  let res := handleCaptcha env now task timeout m1 in
  res.2 = Raise TypeError /\
  res.2 <> Ok true /\
  res.2 <> Ok false /\
  tasks res.1 = tasks m /\
  ct_error (heap res.1 task) = None /\
  ct_handler (heap res.1 task) = [] /\
  (forall (task' : ref) (w : Z),
     ct_waitUntil (heap m task') = Some w ->
     let t := offered env now timeout w (heap m task') in
     let res' := handleCaptcha env now task' timeout m in
     (nonempty (ct_handler t) || isClientConnected env = true ->
        res'.2 = Ok true /\ tasks res'.1 = tasks m ++ [task']) /\
     (nonempty (ct_handler t) || isClientConnected env = false ->
        res'.2 = Ok false /\ tasks res'.1 = tasks m /\
        ct_error (heap res'.1 task') = Some (gettext env no_client_message))).
Proof.
  cbn zeta.
  assert (Hres : handleCaptcha env now (newTask format params result_type m).1
                   timeout (newTask format params result_type m).2
                 = ((newTask format params result_type m).2, Raise TypeError)).
  { unfold handleCaptcha. cbn [newTask fst snd heap]. by rewrite upd_same. }
  rewrite Hres. cbn [fst snd newTask heap tasks]. rewrite upd_same.
  cbn [ct_error ct_handler CaptchaTask_init].
  repeat (split; [done|]).
  intros task' w Hw. split; intros Hdec.
  - by rewrite (handleCaptcha_enqueues _ _ _ _ _ _ Hw Hdec).
  - rewrite (handleCaptcha_drops _ _ _ _ _ _ Hw Hdec). cbn [fst snd tasks heap].
    by rewrite upd_same.
Qed.

(** C5 (as the code has it).  [getTaskByID(tid)] returns the first task
    of the manager's list whose id is [str(tid)], and nothing else
    decides it: a task that is not in the list is not returned,
    assigning a status, an error or a [waitUntil] to any task leaves
    the answer as it is, and the clock is not read.  [handleCaptcha]
    appends the task to the list each time it returns [True] for it,
    and [removeTask] takes one occurrence of the task out of the list,
    the first one: the task is still listed after it exactly if it was
    listed more than once. *)
Theorem getTaskByID_first_listed (m : CaptchaManager) (tid : pyval) :
  (forall task,
     getTaskByID tid m = Some task <->
     exists pre post,
       tasks m = pre ++ task :: post /\
       ct_id (heap m task) = py_str tid /\
       Forall (fun r => ct_id (heap m r) <> py_str tid) pre) /\
  (forall task, task ∉ tasks m -> getTaskByID tid m <> Some task) /\
  (forall r st,
     getTaskByID tid (set_task r (with_status st (heap m r)) m)
     = getTaskByID tid m) /\
  (forall r w,
     getTaskByID tid (set_task r (with_waiting w (heap m r)) m)
     = getTaskByID tid m) /\
  (forall r e,
     getTaskByID tid (set_task r (with_error e (heap m r)) m)
     = getTaskByID tid m) /\
  (forall env now task timeout,
     tasks (handleCaptcha env now task timeout m).1
     = match (handleCaptcha env now task timeout m).2 with
       | Ok true => tasks m ++ [task]
       | _ => tasks m
       end) /\
  (forall task,
     tasks (removeTask task m) = list_remove task (tasks m) /\
     count_occ Nat.eq_dec (tasks (removeTask task m)) task
     = Nat.pred (count_occ Nat.eq_dec (tasks m) task) /\
     (task ∈ tasks (removeTask task m)
      <-> (2 <= count_occ Nat.eq_dec (tasks m) task)%nat) /\
     (forall r, r <> task ->
        count_occ Nat.eq_dec (tasks (removeTask task m)) r
        = count_occ Nat.eq_dec (tasks m) r)).
Proof.
  assert (Hset : forall r t, ct_id t = ct_id (heap m r) ->
            getTaskByID tid (set_task r t m) = getTaskByID tid m).
  { intros r t Hid. unfold getTaskByID, set_task; cbn [heap tasks].
    apply find_ext_in. intros x. unfold upd.
    destruct (Nat.eqb_spec x r) as [->|]; [by rewrite Hid|done]. }
  split; [|split; [|split; [|split; [|split; [|split]]]]].
  - intros task. unfold getTaskByID. rewrite find_first_match.
    split; intros (pre & post & Hl & Hid & Hpre); exists pre, post;
      (split; [done|]); (split; [by apply String.eqb_eq|]);
      (eapply Forall_impl; [exact Hpre|]); cbn; intros r Hr;
      by apply String.eqb_neq.
  - intros task Hnot Hget. apply find_some in Hget as [Hin _].
    by apply list_elem_of_In in Hin.
  - intros r st. by apply Hset.
  - intros r w. by apply Hset.
  - intros r e. by apply Hset.
  - intros. apply handleCaptcha_tasks.
  - intros task.
    assert (Hcount : count_occ Nat.eq_dec (tasks (removeTask task m)) task
                     = Nat.pred (count_occ Nat.eq_dec (tasks m) task)).
    { rewrite removeTask_tasks, count_occ_list_remove.
      by destruct (Nat.eq_dec task task). }
    split; [apply removeTask_tasks|]. split; [exact Hcount|]. split.
    + rewrite list_elem_of_In, (count_occ_In Nat.eq_dec), Hcount. lia.
    + intros r Hr. rewrite removeTask_tasks, count_occ_list_remove.
      by destruct (Nat.eq_dec task r).
Qed.

(** C5 as the design document states it fails: the task that a plugin
    has just created has status ["init"], one of the open ones, and id
    ["0"], yet [getTaskByID] does not return it, for the task list is
    empty. *)
Lemma getTaskByID_documented_reachability_fails :
  ct_status (heap first_task.2 first_task.1) = "init"
  /\ ct_id (heap first_task.2 first_task.1) = "0"
  /\ open_status (ct_status (heap first_task.2 first_task.1)) = true
  /\ getTaskByID (PInt 0) first_task.2 = None
  /\ getTaskByID (PStr "0") first_task.2 = None
  /\ ~ documented_reachability first_task.2 first_task.1.
Proof.
  repeat split; try reflexivity.
  intros [_ Hback]. specialize (Hback eq_refl). discriminate Hback.
Qed.

End CaptchaClaims.

(** ** Info/result cache *)

Section CacheFacts.

Import ThreadMgr.

Context {Info : Type}.

Implicit Types tm : ThreadManager Info.

Lemma expire_due now tm :
  expiry_due now tm ->
  expire now tm
  = ({| infoCache := ∅; resultIDs := resultIDs tm; infoResults := ∅;
        timestamp := timestamp tm |},
     [EvLogDebug "Cleared Result cache"]).
Proof.
  intros [Hne Hlt]. unfold expire.
  apply Z.ltb_lt in Hlt. rewrite Hlt, andb_true_r.
  destruct Hne as [Hne|Hne].
  - by rewrite (bool_decide_eq_false_2 _ Hne).
  - rewrite (bool_decide_eq_false_2 _ Hne). by rewrite orb_true_r.
Qed.

Lemma expire_not_due now tm :
  ~ expiry_due now tm -> expire now tm = (tm, []).
Proof.
  intros Hnot. unfold expire.
  destruct (Z.ltb_spec (timestamp tm) now) as [Hlt|Hge];
    [|by rewrite andb_false_r].
  rewrite andb_true_r.
  do 2 case_bool_decide; cbn; try done; exfalso; apply Hnot; split; auto.
Qed.

Lemma expire_fresh now tm : now <= timestamp tm -> expire now tm = (tm, []).
Proof. intros Hle. apply expire_not_due. intros [_ Hlt]. lia. Qed.

(** The expiry step changes the manager only when it is due, and then
    it leaves both caches empty. *)
Lemma expire_changes now tm :
  (expire now tm).1 <> tm ->
  expiry_due now tm /\
  infoCache (expire now tm).1 = ∅ /\ infoResults (expire now tm).1 = ∅.
Proof.
  unfold expire.
  destruct ((negb (bool_decide (infoCache tm = ∅))
             || negb (bool_decide (infoResults tm = ∅)))
            && (timestamp tm <? now)) eqn:Hc; cbn [fst]; [|done].
  intros _. apply andb_true_iff in Hc as [Hne Hlt]. apply Z.ltb_lt in Hlt.
  split; [|done]. split; [|done].
  apply orb_true_iff in Hne as [H|H];
    apply negb_true_iff, bool_decide_eq_false in H; auto.
Qed.

(** The cache attributes after a tick: those that the expiry step
    leaves if the tick got to its end, and those it started with if an
    exception left [run] before. *)
Lemma run_cache {World : Type}
    (tryReconnect checkThreadCount assignJob : World -> World * option exn)
    (reconnecting_clear : World -> World) now (w : World) tm :
  let res := run tryReconnect checkThreadCount assignJob reconnecting_clear
                 now (w, tm) in
  res.1.1.2 = match res.2 with
              | None => (expire now tm).1
              | Some _ => tm
              end.
Proof.
  unfold run.
  destruct (tryReconnect w) as [w1 [e1|]];
    destruct (checkThreadCount _) as [w2 [e2|]]; try done;
    destruct (assignJob w2) as [w3 [e3|]];
    try destruct (assignJob w3) as [w4 [e4|]];
    by destruct (expire now tm).
Qed.

Lemma run_fresh {World : Type}
    (tryReconnect checkThreadCount assignJob : World -> World * option exn)
    (reconnecting_clear : World -> World) now (w : World) tm :
  now <= timestamp tm ->
  (run tryReconnect checkThreadCount assignJob reconnecting_clear
       now (w, tm)).1.1.2 = tm.
Proof.
  intros Hle. rewrite run_cache. rewrite expire_fresh by done.
  by destruct (_.2).
Qed.

Lemma createResultThread_timestamp now tm :
  timestamp (createResultThread now tm).2 = now + purge_window.
Proof. reflexivity. Qed.

Lemma getInfoResult_timestamp now rid tm :
  timestamp (getInfoResult now rid tm).2 = now + purge_window.
Proof.
  unfold getInfoResult. cbn [with_timestamp infoResults].
  by destruct (infoResults tm !! rid).
Qed.

Lemma setInfoResults_timestamp rid delta tm tm' :
  setInfoResults rid delta tm = Ok tm' -> timestamp tm' = timestamp tm.
Proof.
  unfold setInfoResults. destruct (infoResults tm !! rid); [|done].
  by intros [= <-].
Qed.

Lemma merges_timestamp ms : forall tm,
  timestamp (merges ms tm) = timestamp tm.
Proof.
  induction ms as [|[rid delta] ms IH]; intros tm; [done|]. cbn [merges].
  destruct (setInfoResults rid delta tm) as [tm'|e] eqn:Hm; [|apply IH].
  by rewrite IH, (setInfoResults_timestamp _ _ _ _ Hm).
Qed.

End CacheFacts.

Section CacheClaims.

Import ThreadMgr Examples.

(** C6 (as the code has it).  [createResultThread] and [getInfoResult]
    set the timestamp to the clock reading plus the purge window of 300
    seconds; [setInfoResults] leaves the timestamp as it is.  A tick,
    whatever the rest of the core does in it and however it ends,
    changes the cache only if one of the two caches is not empty and
    the timestamp lies before the clock reading, and then it empties
    both; so the cache is not flushed within 300 seconds of the last
    creation or retrieval, whatever was merged since. *)
Theorem cache_timestamp_refresh {Info : Type} (tm : ThreadManager Info) (now : Z) :
  purge_window = 300 /\
  timestamp (createResultThread now tm).2 = now + purge_window /\
  (forall rid, timestamp (getInfoResult now rid tm).2 = now + purge_window) /\
  (forall rid delta tm',
     setInfoResults rid delta tm = Ok tm' -> timestamp tm' = timestamp tm) /\
  (forall (World : Type)
          (tryReconnect checkThreadCount assignJob : World -> World * option exn)
          (reconnecting_clear : World -> World) (w : World),
     let tm' := (run tryReconnect checkThreadCount assignJob reconnecting_clear
                     now (w, tm)).1.1.2 in
     (tm' <> tm ->
        (infoCache tm <> ∅ \/ infoResults tm <> ∅) /\ timestamp tm < now /\
        infoCache tm' = ∅ /\ infoResults tm' = ∅) /\
     (now <= timestamp tm -> tm' = tm)) /\
  (forall (World : Type)
          (tryReconnect checkThreadCount assignJob : World -> World * option exn)
          (reconnecting_clear : World -> World) (w : World) (t0 : Z),
     now <= t0 + purge_window ->
     forall ms tm0,
       (tm0 = merges ms (createResultThread t0 tm).2 \/
        exists rid, tm0 = merges ms (getInfoResult t0 rid tm).2) ->
       (run tryReconnect checkThreadCount assignJob reconnecting_clear
            now (w, tm0)).1.1.2 = tm0).
Proof.
  split; [reflexivity|]. split; [reflexivity|].
  split; [intros; apply getInfoResult_timestamp|].
  split; [intros *; apply setInfoResults_timestamp|].
  split.
  - intros World tR cTC aJ rc w. cbn zeta. split; [|apply run_fresh].
    rewrite run_cache. destruct (_.2); [done|].
    intros [[Hne Hlt] [Hc Hr]]%expire_changes. done.
  - intros World tR cTC aJ rc w t0 Hle ms tm0 Htm0. apply run_fresh.
    destruct Htm0 as [->|[rid ->]]; rewrite merges_timestamp.
    + by rewrite createResultThread_timestamp.
    + by rewrite getInfoResult_timestamp.
Qed.

(** C6 as the design document states it fails for the merge.  The probe
    was created at time 0; its worker merges a result at time 400; the
    timestamp still reads 300, not 700, and the tick at time 401 clears
    the cache one second after the merge. *)
Lemma setInfoResults_does_not_refresh :
  timestamp probe_running = 300
  /\ (exists tm',
        setInfoResults 0 probe_delta probe_running = Ok tm' /\
        timestamp tm' = 300 /\
        infoResults tm' = {[ 0 := probe_delta ]} /\
        infoResults (expire 401 tm').1 = ∅)
  /\ ~ documented_refresh 400 (OpMerge 0 probe_delta) probe_running.
Proof.
  split; [reflexivity|]. split.
  - eexists. split; [reflexivity|]. split; [reflexivity|].
    split; [vm_compute; reflexivity|]. vm_compute. reflexivity.
  - intros Hdoc.
    specialize (Hdoc _ eq_refl). vm_compute in Hdoc. discriminate Hdoc.
Qed.

End CacheClaims.

(** ** The scheduler tick *)

Section Tick.

Import ThreadMgr.

Context {Info World : Type}.
Variable tryReconnect checkThreadCount assignJob : World -> World * option exn.
Variable reconnecting_clear : World -> World.

(** C7 (as the code has it).  Whether or not [tryReconnect] raised, and
    provided [checkThreadCount] returned: if the first [assignJob]
    returns, the tick ends with the expiry step.  If it raises, the
    failure is logged, [run] sleeps 0.5 seconds and calls [assignJob]
    once more, and no third time; if that call returns, the tick ends
    with the expiry step; if it raises too, the exception leaves [run]
    and the expiry step is skipped. *)
Theorem run_assign_retry (now : Z) (w : World) (tm : ThreadManager Info)
    (w2 w3 w4 : World) (r3 r4 : option exn) :
  checkThreadCount (after_reconnect tryReconnect reconnecting_clear w)
  = (w2, None) ->
  assignJob w2 = (w3, r3) ->
  assignJob w3 = (w4, r4) ->
  run tryReconnect checkThreadCount assignJob reconnecting_clear now (w, tm)
  = match r3, r4 with
    | None, _ =>
        ((w3, (expire now tm).1),
         reconnect_events tryReconnect w ++ [EvCheckThreadCount; EvAssignJob]
         ++ (expire now tm).2,
         None)
    | Some exc, None =>
        ((w4, (expire now tm).1),
         reconnect_events tryReconnect w
         ++ [EvCheckThreadCount; EvAssignJob; EvLogWarning exc; EvSleep 500;
             EvAssignJob]
         ++ (expire now tm).2,
         None)
    | Some exc, Some exc' =>
        ((w4, tm),
         reconnect_events tryReconnect w
         ++ [EvCheckThreadCount; EvAssignJob; EvLogWarning exc; EvSleep 500;
             EvAssignJob],
         Some exc')
    end.
Proof.
  unfold run, after_reconnect, reconnect_events.
  destruct (tryReconnect w) as [w1 [e1|]]; cbn [fst snd];
    intros -> -> ->;
    destruct r3 as [e3|], r4 as [e4|]; cbn [fst snd];
    destruct (expire now tm) as [tm' ev]; cbn [fst snd];
    rewrite <- ?app_assoc; reflexivity.
Qed.

End Tick.

Section TickClaims.

Import ThreadMgr Examples.

Lemma run_assign_retry_witness :
  quiet (after_reconnect quiet (fun w => w) O) = (O, None) /\
  flaky_assignJob O = (1%nat, Some ValueError) /\
  flaky_assignJob 1%nat = (2%nat, None) /\
  run quiet quiet flaky_assignJob (fun w => w) 1000 (O, stale_cache)
  = ((2%nat, (expire 1000 stale_cache).1),
     reconnect_events quiet O
     ++ [EvCheckThreadCount; EvAssignJob; EvLogWarning ValueError; EvSleep 500;
         EvAssignJob]
     ++ (expire 1000 stale_cache).2,
     None).
Proof.
  split; [reflexivity|]. split; [reflexivity|]. split; [reflexivity|].
  exact (run_assign_retry quiet quiet flaky_assignJob (fun w => w) 1000 O
           stale_cache O 1%nat 2%nat (Some ValueError) None
           eq_refl eq_refl eq_refl).
Defined.

(** C7 as the design document states it fails when the retry raises as
    well: with a cache that is due for expiry, the tick ends with the
    exception of the second [assignJob], the cache is as it was, and no
    expiry was logged. *)
Lemma run_aborts_when_retry_raises :
  expiry_due 1000 stale_cache
  /\ infoResults (expire 1000 stale_cache).1 = ∅
  /\ run quiet quiet failing_assignJob (fun w => w) 1000 (O, stale_cache)
     = ((2%nat, stale_cache),
        [EvTryReconnect; EvCheckThreadCount; EvAssignJob;
         EvLogWarning ValueError; EvSleep 500; EvAssignJob],
        Some ValueError)
  /\ infoResults stale_cache <> ∅.
Proof.
  split; [|split; [|split]].
  - split; [right; vm_compute; discriminate|vm_compute; reflexivity].
  - vm_compute. reflexivity.
  - reflexivity.
  - vm_compute. discriminate.
Qed.

End TickClaims.

(** ** Polling probe results *)

Section PollClaims.

Import ThreadMgr Api.

Context {Info : Type}.

Implicit Types tm : ThreadManager Info.

Lemma getInfoResult_data now rid tm :
  (getInfoResult now rid tm).1 = bucket_of rid tm.
Proof.
  unfold getInfoResult, bucket_of. cbn [with_timestamp infoResults].
  by destruct (infoResults tm !! rid).
Qed.

Lemma getInfoResult_buckets now rid tm rid' :
  infoResults (getInfoResult now rid tm).2 !! rid'
  = if decide (rid' = rid) then (fun _ => ∅) <$> (infoResults tm !! rid)
    else infoResults tm !! rid'.
Proof.
  unfold getInfoResult. cbn [with_timestamp infoResults].
  destruct (infoResults tm !! rid) as [b|] eqn:Hb; cbn [snd with_infoResults infoResults].
  - case_decide as Heq; [subst; by rewrite lookup_insert_eq|].
    by rewrite lookup_insert_ne.
  - case_decide as Heq; [by subst|done].
Qed.

Lemma pollResults_unfold now rid tm :
  pollResults now rid tm
  = (if bool_decide (is_Some (bucket_of rid tm !! ALL_INFO_FETCHED))
     then mkOnlineCheck (-1) (delete ALL_INFO_FETCHED (bucket_of rid tm))
     else mkOnlineCheck rid (bucket_of rid tm),
     (getInfoResult now rid tm).2).
Proof.
  unfold pollResults. rewrite <- (getInfoResult_data now rid tm).
  destruct (getInfoResult now rid tm) as [res tm']. cbn [fst snd].
  by case_bool_decide.
Qed.

(** C9 (as the code has it).  For every result id [rid], the
    [OnlineCheck] that [pollResults(rid)] returns never holds the key
    [ALL_INFO_FETCHED]; its result id is [-1] if the stored bucket held
    that key and is [rid] otherwise, so it is [-1] exactly when the
    bucket held the key or [rid] is [-1] itself; its data are the
    bucket without that key; and the stored bucket is empty afterwards,
    the other buckets being untouched. *)
Theorem pollResults_sentinel (now rid : Z) tm :
  let oc := (pollResults now rid tm).1 in
  let tm' := (pollResults now rid tm).2 in
  oc_data oc !! ALL_INFO_FETCHED = None /\
  (is_Some (bucket_of rid tm !! ALL_INFO_FETCHED) -> oc_rid oc = -1) /\
  (bucket_of rid tm !! ALL_INFO_FETCHED = None -> oc_rid oc = rid) /\
  (oc_rid oc = -1
   <-> is_Some (bucket_of rid tm !! ALL_INFO_FETCHED) \/ rid = -1) /\
  (rid <> -1 ->
   (oc_rid oc = -1 <-> is_Some (bucket_of rid tm !! ALL_INFO_FETCHED))) /\
  oc_data oc = delete ALL_INFO_FETCHED (bucket_of rid tm) /\
  bucket_of rid tm' = ∅ /\
  (is_Some (infoResults tm !! rid) -> infoResults tm' !! rid = Some ∅) /\
  (forall rid', rid' <> rid -> infoResults tm' !! rid' = infoResults tm !! rid').
Proof.
  intros oc tm'. subst oc tm'. rewrite pollResults_unfold. cbn [fst snd].
  split; [|split; [|split; [|split; [|split; [|split; [|split; [|split]]]]]]].
  - case_bool_decide as Hs; cbn [oc_data]; [apply lookup_delete_eq|].
    by apply eq_None_not_Some.
  - intros Hs. by rewrite bool_decide_eq_true_2.
  - intros Hnone. case_bool_decide as Hs; cbn [oc_rid]; [|done].
    rewrite Hnone in Hs. by destruct Hs.
  - case_bool_decide as Hs; cbn [oc_rid]; [by split; [left|]|].
    split; [by right|]. by intros [?|?].
  - intros Hrid. case_bool_decide as Hs; cbn [oc_rid]; [done|].
    split; [congruence|done].
  - case_bool_decide as Hs; cbn [oc_data]; [done|].
    symmetry. apply delete_id. by apply eq_None_not_Some.
  - unfold bucket_of at 1. rewrite getInfoResult_buckets.
    rewrite decide_True by done. by destruct (infoResults tm !! rid).
  - intros [b Hb]. rewrite getInfoResult_buckets, decide_True by done.
    by rewrite Hb.
  - intros rid' Hne. by rewrite getInfoResult_buckets, decide_False.
Qed.

(** C10.  For a [rid] that is not a key of the info-results map,
    [setInfoResults(rid, delta)] raises [KeyError]: it neither creates
    the bucket nor drops the delta silently; [getInfoResult(rid)]
    returns an empty map and leaves the map of buckets as it is.  After
    an expiry step that cleared the cache no [rid] is a key, so every
    merge raises. *)
Theorem setInfoResults_absent_rid (now rid : Z) (delta : gmap string Info) tm :
  infoResults tm !! rid = None ->
  setInfoResults rid delta tm = Raise KeyError /\
  getInfoResult now rid tm = (∅, with_timestamp (now + purge_window) tm) /\
  (forall tm0 rid0,
     expiry_due now tm0 ->
     setInfoResults rid0 delta (expire now tm0).1 = Raise KeyError).
Proof.
  intros Hnone. split; [|split].
  - unfold setInfoResults. by rewrite Hnone.
  - unfold getInfoResult. cbn [with_timestamp infoResults]. by rewrite Hnone.
  - intros tm0 rid0 Hdue. rewrite (expire_due _ _ Hdue). cbn [fst].
    unfold setInfoResults. cbn [infoResults]. by rewrite lookup_empty.
Qed.

End PollClaims.

Section PollWitnesses.

Import ThreadMgr Api Examples.

(** C9 as the design document states it fails for the id [-1]: the
    probe has no bucket under [-1], let alone a sentinel, and
    [pollResults(-1)] answers with the result id [-1] all the same. *)
Lemma pollResults_documented_sentinel_fails :
  bucket_of (-1) probe_running !! ALL_INFO_FETCHED = None /\
  (pollResults 10 (-1) probe_running).1 = mkOnlineCheck (-1) ∅ /\
  ~ documented_sentinel 10 (-1) probe_running.
Proof.
  split; [reflexivity|]. split; [reflexivity|].
  intros [Hto _]. specialize (Hto eq_refl). by destruct Hto.
Qed.

Lemma setInfoResults_absent_rid_witness :
  infoResults probe_running !! 7 = None /\
  setInfoResults 7 probe_delta probe_running = Raise KeyError /\
  getInfoResult 500 7 probe_running
  = (∅, with_timestamp (500 + purge_window) probe_running) /\
  (forall tm0 rid0,
     expiry_due 500 tm0 ->
     setInfoResults rid0 probe_delta (expire 500 tm0).1 = Raise KeyError).
Proof.
  split; [reflexivity|].
  exact (setInfoResults_absent_rid 500 7 probe_delta probe_running eq_refl).
Defined.

End PollWitnesses.

(** * More of the code

    Properties of the other methods of the four files, read off the
    code. *)

(** ** [ChunkInfo]: accessors, [remove], and what [load] rejects *)

Section ChunkInfoMore.

Import HTTPChunk Examples.

Local Abbreviation NL := (String LF EmptyString).

Lemma createChunks_forgets_chunks K l ci :
  createChunks K (with_chunks l ci) = createChunks K ci.
Proof. reflexivity. Qed.

Lemma py_index_nonneg {A} (l : list A) (i : Z) (a : A) :
  0 <= i -> l !! Z.to_nat i = Some a -> py_index l i = Ok a.
Proof.
  intros Hi Ha. unfold py_index.
  assert (Hlt : (Z.to_nat i < List.length l)%nat) by (by eapply lookup_lt_Some).
  destruct (Z.ltb_spec i 0); [lia|].
  destruct (Z.leb_spec 0 i); [|lia].
  destruct (Z.ltb_spec i (Z.of_nat (List.length l))); [|lia].
  cbn [andb]. unfold index. by rewrite Ha.
Qed.

Lemma py_index_negative {A} (l : list A) (i : Z) (a : A) :
  i < 0 -> 0 <= i + Z.of_nat (List.length l) ->
  l !! Z.to_nat (i + Z.of_nat (List.length l)) = Some a -> py_index l i = Ok a.
Proof.
  intros Hi Hj Ha. unfold py_index.
  destruct (Z.ltb_spec i 0); [|lia].
  destruct (Z.leb_spec 0 (i + Z.of_nat (List.length l))); [|lia].
  destruct (Z.ltb_spec (i + Z.of_nat (List.length l)) (Z.of_nat (List.length l)));
    [|lia].
  cbn [andb]. unfold index. by rewrite Ha.
Qed.

Lemma py_index_out_of_range {A} (l : list A) (i : Z) :
  Z.of_nat (List.length l) <= i \/ i < - Z.of_nat (List.length l) ->
  py_index l i = Raise IndexError.
Proof.
  intros Hi. unfold py_index.
  destruct (Z.ltb_spec i 0).
  - destruct (Z.leb_spec 0 (i + Z.of_nat (List.length l))); [lia|done].
  - destruct (Z.leb_spec 0 i); [|lia].
    destruct (Z.ltb_spec i (Z.of_nat (List.length l))); [lia|done].
Qed.

(** X1.  [createChunks] starts from an empty chunk list: the layout it
    stores does not depend on the chunks the object held before, so
    laying out a second time with a count [K] gives what laying out
    once with [K] gives. *)
Theorem createChunks_overwrites (ci : ChunkInfo) (K1 K : Z) :
  K1 <> 0 ->
  exists ci1,
    createChunks K1 ci = Ok ci1 /\
    createChunks K ci1 = createChunks K ci /\
    forall nm range, createChunks K (addChunk nm range ci) = createChunks K ci.
Proof.
  intros HK1. eexists. split; [by apply createChunks_closed_form|].
  split; [apply createChunks_forgets_chunks|reflexivity].
Qed.

Lemma createChunks_overwrites_witness :
  3 <> 0 /\
  exists ci1,
    createChunks 3 (with_size 10 (init "f")) = Ok ci1 /\
    createChunks 2 ci1 = createChunks 2 (with_size 10 (init "f")) /\
    forall nm range,
      createChunks 2 (addChunk nm range (with_size 10 (init "f")))
      = createChunks 2 (with_size 10 (init "f")).
Proof.
  split; [discriminate|].
  exact (createChunks_overwrites (with_size 10 (init "f")) 3 2 ltac:(discriminate)).
Defined.

(** X2.  After [createChunks(K)] with [K >= 1]: [getCount()] is [K];
    [getChunkName(i)] and [getChunkRange(i)] return the name and range
    of chunk [i] for [0 <= i < K], and the same chunk for the negative
    index [i - K]; for an index of [K] or more, or below [-K], both
    raise [IndexError]. *)
Theorem createChunks_accessors (ci : ChunkInfo) (K : Z) :
  1 <= K ->
  exists ci',
    createChunks K ci = Ok ci' /\
    getCount ci' = K /\
    (forall i, 0 <= i < K ->
       getChunkName i ci' = Ok (ci_name ci +:+ ".chunk" +:+ str_of_int i) /\
       getChunkRange i ci' = Ok (chunk_range (ci_size ci) K i) /\
       getChunkName (i - K) ci' = Ok (ci_name ci +:+ ".chunk" +:+ str_of_int i) /\
       getChunkRange (i - K) ci' = Ok (chunk_range (ci_size ci) K i)) /\
    (forall i, K <= i \/ i < - K ->
       getChunkName i ci' = Raise IndexError /\
       getChunkRange i ci' = Raise IndexError).
Proof.
  intros HK.
  destruct (createChunks_lookup ci K 0) as (ci' & Hrun & _ & _ & Hlen & _); [lia|].
  assert (Hcount : Z.of_nat (List.length (ci_chunks ci')) = K) by lia.
  exists ci'. split; [done|]. split; [done|]. split.
  - intros i Hi.
    destruct (createChunks_lookup ci K i) as (ci2 & Hrun2 & _ & _ & _ & Hi2); [lia|].
    rewrite Hrun in Hrun2. injection Hrun2 as <-.
    unfold getChunkName, getChunkRange.
    pose proof (py_index_nonneg (ci_chunks ci') i _ (proj1 Hi) Hi2) as Hpos.
    assert (Hneg : py_index (ci_chunks ci') (i - K)
                   = Ok (ci_name ci +:+ ".chunk" +:+ str_of_int i,
                         chunk_range (ci_size ci) K i)).
    { apply py_index_negative; [lia | lia | ].
      rewrite Hcount. by replace (i - K + K) with i by lia. }
    by rewrite Hpos, Hneg.
  - intros i Hi. unfold getChunkName, getChunkRange.
    by rewrite py_index_out_of_range by lia.
Qed.

Lemma createChunks_accessors_witness :
  1 <= 3 /\
  exists ci',
    createChunks 3 (with_size 10 (init "f")) = Ok ci' /\
    getCount ci' = 3 /\
    (forall i, 0 <= i < 3 ->
       getChunkName i ci' = Ok ("f" +:+ ".chunk" +:+ str_of_int i) /\
       getChunkRange i ci' = Ok (chunk_range 10 3 i) /\
       getChunkName (i - 3) ci' = Ok ("f" +:+ ".chunk" +:+ str_of_int i) /\
       getChunkRange (i - 3) ci' = Ok (chunk_range 10 3 i)) /\
    (forall i, 3 <= i \/ i < - 3 ->
       getChunkName i ci' = Raise IndexError /\
       getChunkRange i ci' = Raise IndexError).
Proof.
  split; [lia|].
  exact (createChunks_accessors (with_size 10 (init "f")) 3 ltac:(lia)).
Defined.

Lemma str_length_app s t :
  String.length (s +:+ t) = (String.length s + String.length t)%nat.
Proof. induction s as [|c s IH]; [done|]. rewrite str_app_cons. cbn. by rewrite IH. Qed.

(** Appending the same suffix to different strings gives different
    strings. *)
Lemma str_app_inj_l s1 s2 t : s1 +:+ t = s2 +:+ t -> s1 = s2.
Proof.
  revert s2. induction s1 as [|c s1 IH]; intros [|d s2] Heq; [done | | | ].
  - apply (f_equal String.length) in Heq.
    rewrite str_app_nil_l, str_app_cons in Heq. cbn in Heq.
    rewrite str_length_app in Heq. lia.
  - apply (f_equal String.length) in Heq.
    rewrite str_app_nil_l, str_app_cons in Heq. cbn in Heq.
    rewrite str_length_app in Heq. lia.
  - rewrite !str_app_cons in Heq. injection Heq as -> Heq. f_equal. by apply IH.
Qed.

(** Two file systems that agree on the file that the sidecar path
    names give [load] the same. *)
Lemma load_agree os name (fs fs' : filesystem) :
  (forall key, file_of os (name +:+ ".chunks") = Some key ->
               fs' !! key = fs !! key) ->
  load os name fs' = load os name fs.
Proof.
  intros Hagree. unfold load, path_exists, read_text.
  unfold file_of in Hagree.
  destruct (os (name +:+ ".chunks")) as [e|e|key dr dw du]; try done.
  by rewrite (Hagree key eq_refl).
Qed.

Lemma save_inv os ci (fs fs' : filesystem) :
  save os ci fs = Ok fs' ->
  exists key dr du,
    os (ci_name ci +:+ ".chunks") = File key dr None du /\
    fs' = <[key := sidecar_text ci]> fs.
Proof.
  unfold save, write_text.
  destruct (os (ci_name ci +:+ ".chunks")) as [e|e|key dr [e|] du]; try done.
  intros [= <-]. by exists key, dr, du.
Qed.

Lemma remove_inv os ci (fs fs' : filesystem) :
  remove os ci fs = Ok fs' ->
  fs' = fs \/
  exists key dr dw,
    os (ci_name ci +:+ ".chunks") = File key dr dw None /\
    fs' = delete key fs.
Proof.
  unfold remove, path_exists, os_remove.
  destruct (os (ci_name ci +:+ ".chunks")) as [e|e|key dr dw [e|]]; try done.
  - intros [= <-]. by left.
  - case_bool_decide; [done|]. intros [= <-]. by left.
  - case_bool_decide as Hs; [|intros [= <-]; by left].
    destruct (fs !! key); [|done]. intros [= <-]. right. by exists key, dr, dw.
Qed.



(** X4.  The sidecar of one file is no concern of another: where the
    sidecar path of [name] is no spelling of the file that the object's
    own sidecar path names, a [save()] or [remove()] that returns
    leaves what [load(name)] returns as it was.  Two names whose
    sidecar paths the operating system takes for one file are one to
    [load]. *)
Theorem sidecars_are_separate
    (os : string -> path_status) (ci : ChunkInfo) (fs : filesystem)
    (name : string) :
  (forall key, file_of os (ci_name ci +:+ ".chunks") = Some key ->
               file_of os (name +:+ ".chunks") <> Some key) ->
  (forall fs', save os ci fs = Ok fs' -> load os name fs' = load os name fs) /\
  (forall fs', remove os ci fs = Ok fs' -> load os name fs' = load os name fs) /\
  (forall name1 name2 fs0,
     os (name1 +:+ ".chunks") = os (name2 +:+ ".chunks") ->
     load os name1 fs0 = load os name2 fs0).
Proof.
  intros Hother. split; [|split].
  - intros fs' (key & dr & du & Hos & ->)%save_inv.
    apply load_agree. intros k Hk. apply lookup_insert_ne.
    intros <-. apply (Hother key); [|done]. unfold file_of. by rewrite Hos.
  - intros fs' [->|(key & dr & dw & Hos & ->)]%remove_inv; [done|].
    apply load_agree. intros k Hk. apply lookup_delete_ne.
    intros <-. apply (Hother key); [|done]. unfold file_of. by rewrite Hos.
  - intros name1 name2 fs0 Heq. unfold load, path_exists, read_text.
    by rewrite Heq.
Qed.

Lemma sidecars_are_separate_witness :
  let ci := with_size 10 (init "f") in
  let fs : filesystem := {[ "g.chunks" := sidecar_text (init "g") ]} in
  (forall key, file_of dot_os (ci_name ci +:+ ".chunks") = Some key ->
               file_of dot_os ("./g" +:+ ".chunks") <> Some key) /\
  load dot_os "./g" fs = Ok (with_loaded true (init "g")) /\
  (forall fs', save dot_os ci fs = Ok fs' ->
               load dot_os "./g" fs' = load dot_os "./g" fs) /\
  (forall fs', remove dot_os ci fs = Ok fs' ->
               load dot_os "./g" fs' = load dot_os "./g" fs) /\
  (forall name1 name2 fs0,
     dot_os (name1 +:+ ".chunks") = dot_os (name2 +:+ ".chunks") ->
     load dot_os name1 fs0 = load dot_os name2 fs0).
Proof.
  intros ci fs.
  assert (H : forall key, file_of dot_os (ci_name ci +:+ ".chunks") = Some key ->
                          file_of dot_os ("./g" +:+ ".chunks") <> Some key).
  { intros key [= <-]. discriminate. }
  split; [exact H|]. split; [vm_compute; reflexivity|].
  exact (sidecars_are_separate dot_os ci fs "./g" H).
Defined.

Lemma str_app_assoc4 a b c d r :
  (a +:+ b +:+ c +:+ d) +:+ r = a +:+ b +:+ c +:+ d +:+ r.
Proof. by rewrite !str_app_assoc. Qed.

Lemma load_loop_saved_then l rest : forall i ci,
  Forall chunk_loadable l ->
  load_loop (readlines (save_chunks i l +:+ rest)) ci
  = load_loop (readlines rest) (with_chunks (ci_chunks ci ++ l) ci).
Proof.
  induction l as [|[nm [lo hi]] l IH]; intros i ci Hl.
  - cbn [save_chunks]. rewrite str_app_nil_l, app_nil_r. by destruct ci.
  - apply Forall_cons in Hl as [(Hnm & Hlo & Hhi) Hl]. cbn [fst snd] in *.
    rewrite save_chunks_cons. cbn [fst snd].
    rewrite str_app_assoc4, !readlines_terminated.
    { cbn [load_loop]. rewrite load_block_saved by done. cbn [rbind].
      rewrite IH by done. unfold addChunk, with_chunks; cbn.
      by rewrite <- app_assoc. }
    all: rewrite ?no_linebreak_cons, ?no_linebreak_app,
           ?str_of_int_no_linebreak, ?Hnm; reflexivity.
Qed.

(** What [load] makes of a saved sidecar that is followed by [rest]. *)
Lemma load_text_saved_then (ci : ChunkInfo) (rest : string) :
  no_linebreak (ci_name ci) = true ->
  Forall chunk_loadable (ci_chunks ci) ->
  load_text (sidecar_text ci +:+ rest)
  = load_loop (readlines rest)
      {| ci_name := ci_name ci; ci_size := ci_size ci; ci_resume := false;
         ci_chunks := ci_chunks ci; ci_loaded := true |}.
Proof.
  intros Hname Hchunks. unfold load_text, sidecar_text.
  replace (("name:" +:+ ci_name ci +:+ NL +:+ "size:" +:+ str_of_int (ci_size ci)
            +:+ NL +:+ save_chunks 0 (ci_chunks ci)) +:+ rest)
    with ((("name:" +:+ ci_name ci) +:+ NL)
          +:+ (("size:" +:+ str_of_int (ci_size ci)) +:+ NL)
          +:+ (save_chunks 0 (ci_chunks ci) +:+ rest))
    by (by rewrite !str_app_assoc).
  rewrite !readlines_terminated.
  { cbn [readline]. rewrite !drop_last_snoc, !startswith_app. cbn [andb].
    rewrite skip_name, skip_size.
    unfold setSize; cbn [py_int]. rewrite int_of_str_of_int. cbn [rbind].
    by rewrite load_loop_saved_then. }
  all: rewrite no_linebreak_app, ?str_of_int_no_linebreak, ?Hname; reflexivity.
Qed.

(** X5.  A sidecar with a chunk block that is cut short is refused:
    one or two lines after the last complete block (whatever they
    hold) make [load] raise [WrongFormat].  The sidecar is a regular
    file that may be read, under whatever key the operating system
    keeps it. *)
Theorem load_rejects_incomplete_block
    (os : string -> path_status) (ci : ChunkInfo) (fs : filesystem)
    (key : string) (deny_write deny_remove : option exn) (l1 l2 : string) :
  no_linebreak (ci_name ci) = true ->
  Forall chunk_loadable (ci_chunks ci) ->
  no_linebreak l1 = true -> no_linebreak l2 = true ->
  os (ci_name ci +:+ ".chunks") = File key None deny_write deny_remove ->
  load os (ci_name ci)
       (<[key := sidecar_text ci +:+ l1 +:+ NL]> fs)
  = Raise WrongFormat /\
  load os (ci_name ci)
       (<[key := sidecar_text ci +:+ (l1 +:+ NL) +:+ (l2 +:+ NL)]> fs)
  = Raise WrongFormat.
Proof.
  intros Hname Hchunks H1 H2 Hos.
  split; rewrite (load_file _ _ _ _ _ _ _ Hos (lookup_insert_eq _ _ _)),
           load_text_saved_then by done.
  - rewrite <- (str_app_nil_r (l1 +:+ NL)), readlines_terminated by done.
    reflexivity.
  - rewrite readlines_terminated by done.
    rewrite <- (str_app_nil_r (l2 +:+ NL)), readlines_terminated by done.
    cbn [readlines readlines_go load_loop]. unfold load_block.
    cbn [skip drop_last]. by rewrite andb_false_r.
Qed.

Lemma load_rejects_incomplete_block_witness :
  no_linebreak (ci_name (addChunk "f.chunk0" (0, 9) (with_size 10 (init "f"))))
  = true /\
  Forall chunk_loadable
         (ci_chunks (addChunk "f.chunk0" (0, 9) (with_size 10 (init "f")))) /\
  no_linebreak "#1:" = true /\
  no_linebreak (String "009" "name:f.chunk1") = true /\
  plain_os ("f" +:+ ".chunks") = File "f.chunks" None None None /\
  load plain_os "f"
       (<["f.chunks" :=
            sidecar_text (addChunk "f.chunk0" (0, 9) (with_size 10 (init "f")))
            +:+ "#1:" +:+ NL]> ∅)
  = Raise WrongFormat /\
  load plain_os "f"
       (<["f.chunks" :=
            sidecar_text (addChunk "f.chunk0" (0, 9) (with_size 10 (init "f")))
            +:+ ("#1:" +:+ NL) +:+ (String "009" "name:f.chunk1" +:+ NL)]> ∅)
  = Raise WrongFormat.
Proof.
  assert (Hc : Forall chunk_loadable
                 (ci_chunks (addChunk "f.chunk0" (0, 9) (with_size 10 (init "f"))))).
  { repeat constructor; cbn; lia. }
  split; [reflexivity|]. split; [exact Hc|].
  split; [reflexivity|]. split; [reflexivity|]. split; [reflexivity|].
  exact (load_rejects_incomplete_block plain_os
           (addChunk "f.chunk0" (0, 9) (with_size 10 (init "f"))) ∅
           "f.chunks" None None "#1:"
           (String "009" "name:f.chunk1") eq_refl Hc eq_refl eq_refl eq_refl).
Defined.

End ChunkInfoMore.

(** ** Captcha tasks: deadlines, results, ids, removal *)

Section CaptchaMore.

Import Captcha Examples.

(** X6.  [setWaiting(sec)] on a task whose [waitUntil] is a number
    never shortens the deadline: afterwards [waitUntil] is the larger
    of the old value and [now + sec], the status is ["waiting"], the
    task has not timed out at any time up to [now + sec], and it has
    not timed out wherever it had not before. *)
Theorem setWaiting_extends_deadline (now sec : Z) (t : CaptchaTask) (w : Z) :
  ct_waitUntil t = Some w ->
  exists t',
    setWaiting now sec t = Ok t' /\
    ct_waitUntil t' = Some (Z.max w (now + sec)) /\
    ct_status t' = "waiting" /\
    ct_id t' = ct_id t /\
    (forall now', now' <= now + sec -> timedOut now' t' = Ok false) /\
    (forall now', timedOut now' t = Ok false -> timedOut now' t' = Ok false).
Proof.
  intros Hw. eexists. split; [by apply setWaiting_number|].
  cbn [with_waiting ct_waitUntil ct_status ct_id].
  split; [done|]. split; [done|]. split; [done|].
  unfold timedOut; cbn [ct_waitUntil]. rewrite Hw. split.
  - intros now' Hle. f_equal. rewrite Z.gtb_ltb. apply Z.ltb_ge. lia.
  - intros now' [= Hgt]. f_equal.
    rewrite Z.gtb_ltb in Hgt |- *. apply Z.ltb_ge in Hgt. apply Z.ltb_ge. lia.
Qed.

Lemma setWaiting_extends_deadline_witness :
  ct_waitUntil (heap no_solver_waiting.2 no_solver_waiting.1) = Some 0 /\
  exists t',
    setWaiting 1000 30 (heap no_solver_waiting.2 no_solver_waiting.1) = Ok t' /\
    ct_waitUntil t' = Some (Z.max 0 (1000 + 30)) /\
    ct_status t' = "waiting" /\
    ct_id t' = ct_id (heap no_solver_waiting.2 no_solver_waiting.1) /\
    (forall now', now' <= 1000 + 30 -> timedOut now' t' = Ok false) /\
    (forall now',
       timedOut now' (heap no_solver_waiting.2 no_solver_waiting.1) = Ok false ->
       timedOut now' t' = Ok false).
Proof.
  split; [reflexivity|].
  exact (setWaiting_extends_deadline 1000 30
           (heap no_solver_waiting.2 no_solver_waiting.1) 0 eq_refl).
Defined.

Lemma digit_not_comma c : is_digit c = true -> negb (Ascii.eqb c ",") = true.
Proof. destruct c as [[] [] [] [] [] [] [] []]; vm_compute; done. Qed.

Lemma str_of_int_no_comma z :
  all_chars (fun c => negb (Ascii.eqb c ",")) (str_of_int z) = true.
Proof.
  unfold str_of_int.
  destruct z as [|p|p]; cbn [Z.to_int NilEmpty.string_of_int all_chars]; [done | ..].
  - eapply all_chars_impl; [apply digit_not_comma | apply uint_all_digits].
  - apply andb_true_iff. split; [done|].
    eapply all_chars_impl; [apply digit_not_comma | apply uint_all_digits].
Qed.

Lemma str_of_int_inj a b : str_of_int a = str_of_int b -> a = b.
Proof.
  intros Heq. apply (f_equal int_of_str) in Heq.
  rewrite !int_of_str_of_int in Heq. by injection Heq.
Qed.

(** X7.  For a positional task, [setResult] reads back every pair of
    integers written as ["x,y"], negative ones included, and stores
    [None] for a text without a comma. *)
Theorem setResult_positional (t : CaptchaTask) (old : result_value) :
  isPositional t = true ->
  (forall x y, setResult t (str_of_int x +:+ "," +:+ str_of_int y) old = RPair x y) /\
  (forall s, all_chars (fun c => negb (Ascii.eqb c ",")) s = true ->
             setResult t s old = RNone).
Proof.
  intros Hpos.
  assert (Htype : ct_captchaResultType t = "positional")
    by (by apply String.eqb_eq).
  assert (Hfirst : isTextual t || isInteractive t = false).
  { unfold isTextual, isInteractive. by rewrite Htype. }
  split.
  - intros x y. unfold setResult. rewrite Hfirst, Hpos. unfold parse_position.
    change ("," +:+ str_of_int y) with (String "," (str_of_int y)).
    rewrite split_two by apply str_of_int_no_comma.
    cbn [index lookup list_lookup rbind].
    by rewrite !int_of_str_of_int.
  - intros s Hs. unfold setResult. rewrite Hfirst, Hpos. unfold parse_position.
    unfold split. rewrite split_go_last by done. rewrite str_app_nil_l.
    cbn [index lookup list_lookup rbind].
    destruct (int_of_str s); reflexivity.
Qed.

Lemma setResult_positional_witness :
  isPositional positional_task = true /\
  (forall x y,
     setResult positional_task (str_of_int x +:+ "," +:+ str_of_int y) RNone
     = RPair x y) /\
  (forall s, all_chars (fun c => negb (Ascii.eqb c ",")) s = true ->
             setResult positional_task s RNone = RNone).
Proof.
  split; [reflexivity|].
  exact (setResult_positional positional_task RNone eq_refl).
Defined.

Lemma ids_issued_init : ids_issued CaptchaManager_init.
Proof. intros r Hr. cbn in Hr. lia. Qed.

(** X8.  Task ids are not reused: if the tasks issued so far carry the
    numerals of counter values below [ids], then [newTask] returns a new
    object whose id is the numeral of [ids], which differs from the id
    of every task issued before; the earlier tasks and the task list are
    untouched, and the same holds of the manager afterwards. *)
Theorem newTask_fresh_id (format params result_type : string) (m : CaptchaManager) :
  ids_issued m ->
  let task := (newTask format params result_type m).1 in
  let m' := (newTask format params result_type m).2 in
  task = next m /\
  ct_id (heap m' task) = str_of_int (ids m) /\
  (forall r, (r < next m)%nat ->
     heap m' r = heap m r /\ ct_id (heap m' r) <> ct_id (heap m' task)) /\
  tasks m' = tasks m /\
  ids_issued m'.
Proof.
  intros Hinv. cbn [newTask fst snd heap next tasks ids].
  split; [done|]. rewrite upd_same.
  split; [done|]. split; [|split; [done|]].
  - intros r Hr. rewrite upd_other by lia. split; [done|].
    destruct (Hinv r Hr) as (k & Hk & ->). cbn [CaptchaTask_init ct_id py_str].
    intros Heq%str_of_int_inj. lia.
  - intros r Hr. cbn [heap next ids] in Hr |- *.
    destruct (Nat.eq_dec r (next m)) as [->|Hne].
    + rewrite upd_same. exists (ids m). split; [lia|done].
    + rewrite upd_other by done.
      destruct (Hinv r ltac:(lia)) as (k & Hk & Hid). exists k. split; [lia|done].
Qed.

Lemma newTask_fresh_id_witness :
  ids_issued first_task.2 /\
  (newTask "png" "" "positional" first_task.2).1 = next first_task.2 /\
  ct_id (heap (newTask "png" "" "positional" first_task.2).2
              (newTask "png" "" "positional" first_task.2).1)
  = str_of_int (ids first_task.2) /\
  (forall r, (r < next first_task.2)%nat ->
     heap (newTask "png" "" "positional" first_task.2).2 r
     = heap first_task.2 r /\
     ct_id (heap (newTask "png" "" "positional" first_task.2).2 r)
     <> ct_id (heap (newTask "png" "" "positional" first_task.2).2
                    (newTask "png" "" "positional" first_task.2).1)) /\
  tasks (newTask "png" "" "positional" first_task.2).2 = tasks first_task.2 /\
  ids_issued (newTask "png" "" "positional" first_task.2).2.
Proof.
  assert (H : ids_issued first_task.2).
  { exact (proj2 (proj2 (proj2 (proj2
             (newTask_fresh_id "png" "" "textual" CaptchaManager_init
                               ids_issued_init))))). }
  split; [exact H|].
  exact (newTask_fresh_id "png" "" "positional" first_task.2 H).
Defined.

(** X9.  [removeTask(task)] takes one occurrence of the task out of the
    task list, the first one, and nothing else: a task that was
    enqueued twice is still listed once, every other task is listed as
    often as before, looking up an id other than the task's own gives
    what it gave before, and removing a task that is not listed changes
    nothing. *)
Theorem removeTask_one_occurrence (m : CaptchaManager) (task : ref) :
  count_occ Nat.eq_dec (tasks (removeTask task m)) task
  = Nat.pred (count_occ Nat.eq_dec (tasks m) task) /\
  (forall r, r <> task ->
     count_occ Nat.eq_dec (tasks (removeTask task m)) r
     = count_occ Nat.eq_dec (tasks m) r) /\
  (forall tid, ct_id (heap m task) <> py_str tid ->
     getTaskByID tid (removeTask task m) = getTaskByID tid m) /\
  heap (removeTask task m) = heap m /\
  (task ∉ tasks m -> removeTask task m = m).
Proof.
  split; [|split; [|split; [|split]]].
  - rewrite removeTask_tasks, count_occ_list_remove.
    by destruct (Nat.eq_dec task task).
  - intros r Hr. rewrite removeTask_tasks, count_occ_list_remove.
    by destruct (Nat.eq_dec task r).
  - intros tid Hid. unfold getTaskByID.
    assert (Hheap : heap (removeTask task m) = heap m)
      by (unfold removeTask; by case_bool_decide).
    rewrite Hheap, removeTask_tasks. apply find_list_remove.
    by apply String.eqb_neq.
  - unfold removeTask; by case_bool_decide.
  - intros Hnot. unfold removeTask. by rewrite bool_decide_eq_false_2.
Qed.

End CaptchaMore.

(** ** Handing captcha tasks to clients *)

Section CaptchaApiMore.

Import Captcha Api Examples.

Variable json_dumps : string -> string.

(** X10.  [getCaptchaTask] hands out the first task that [getTask]
    finds, under its id as a number.  Asked for exclusively, it marks
    the task ["user"], and [getTask] does not return that task any
    more; otherwise it marks the task ["shared-user"], and [getTask]
    returns the same task again.  Either way the task stays in the list
    and the core records the time of the call. *)
Theorem getCaptchaTask_reserves (now : Z) (core : CaptchaCore) (task : ref) (n : Z) :
  getTask (captchaManager core) = Some task ->
  int_of_str (ct_id (heap (captchaManager core) task)) = Ok n ->
  let t := heap (captchaManager core) task in
  let wire := mkWireCaptchaTask n (Some (json_dumps (ct_captchaParams t)))
                                (Some (ct_captchaFormat t))
                                (Some (ct_captchaResultType t)) in
  let excl := getCaptchaTask json_dumps now true core in
  let shared := getCaptchaTask json_dumps now false core in
  excl.2 = Ok wire /\
  ct_status (heap (captchaManager excl.1) task) = "user" /\
  getTask (captchaManager excl.1) <> Some task /\
  shared.2 = Ok wire /\
  ct_status (heap (captchaManager shared.1) task) = "shared-user" /\
  getTask (captchaManager shared.1) = Some task /\
  tasks (captchaManager excl.1) = tasks (captchaManager core) /\
  tasks (captchaManager shared.1) = tasks (captchaManager core) /\
  lastClientConnected excl.1 = now /\
  lastClientConnected shared.1 = now.
Proof.
  intros Hget Hid t wire excl shared. subst t wire excl shared.
  unfold getCaptchaTask. rewrite Hget.
  unfold set_task, setWatingForUser, getCaptcha.
  cbn [heap tasks fst snd captchaManager lastClientConnected].
  rewrite !upd_same.
  cbn [with_status ct_id ct_captchaParams ct_captchaFormat ct_captchaResultType
       ct_status].
  rewrite Hid. cbn [rbind].
  split; [done|]. split; [done|]. split; [|split; [done|]; split; [done|]; split].
  - intros Hfind. unfold getTask in Hfind. apply find_some in Hfind as [_ Hst].
    cbv beta zeta in Hst. cbn [heap] in Hst. rewrite upd_same in Hst.
    cbn in Hst. discriminate.
  - unfold getTask in *. cbn [heap tasks].
    rewrite <- Hget. apply find_ext_in. intros x. unfold upd.
    destruct (Nat.eqb_spec x task) as [->|_]; [|done].
    apply find_some in Hget as [_ ->]. reflexivity.
  - done.
Qed.

End CaptchaApiMore.

Section CaptchaApiWitnesses.

Import Captcha Api Examples.

Lemma getCaptchaTask_reserves_witness :
  getTask first_task_enqueued = Some O /\
  int_of_str (ct_id (heap first_task_enqueued O)) = Ok 0 /\
  (getCaptchaTask (fun s => s) 2000 true (mkCaptchaCore first_task_enqueued 0)).2
  = Ok (mkWireCaptchaTask 0 (Some "") (Some "png") (Some "textual")) /\
  ct_status (heap (captchaManager
     (getCaptchaTask (fun s => s) 2000 true
        (mkCaptchaCore first_task_enqueued 0)).1) O) = "user" /\
  getTask (captchaManager
     (getCaptchaTask (fun s => s) 2000 true
        (mkCaptchaCore first_task_enqueued 0)).1) <> Some O /\
  (getCaptchaTask (fun s => s) 2000 false (mkCaptchaCore first_task_enqueued 0)).2
  = Ok (mkWireCaptchaTask 0 (Some "") (Some "png") (Some "textual")) /\
  ct_status (heap (captchaManager
     (getCaptchaTask (fun s => s) 2000 false
        (mkCaptchaCore first_task_enqueued 0)).1) O) = "shared-user" /\
  getTask (captchaManager
     (getCaptchaTask (fun s => s) 2000 false
        (mkCaptchaCore first_task_enqueued 0)).1) = Some O /\
  tasks (captchaManager
     (getCaptchaTask (fun s => s) 2000 true
        (mkCaptchaCore first_task_enqueued 0)).1) = tasks first_task_enqueued /\
  tasks (captchaManager
     (getCaptchaTask (fun s => s) 2000 false
        (mkCaptchaCore first_task_enqueued 0)).1) = tasks first_task_enqueued /\
  lastClientConnected
     (getCaptchaTask (fun s => s) 2000 true
        (mkCaptchaCore first_task_enqueued 0)).1 = 2000 /\
  lastClientConnected
     (getCaptchaTask (fun s => s) 2000 false
        (mkCaptchaCore first_task_enqueued 0)).1 = 2000.
Proof.
  split; [reflexivity|]. split; [reflexivity|].
  exact (getCaptchaTask_reserves (fun s => s) 2000
           (mkCaptchaCore first_task_enqueued 0) O 0 eq_refl eq_refl).
Defined.

End CaptchaApiWitnesses.

(** ** The info/result cache over time *)

Section CacheMore.

Import ThreadMgr Api.

Context {Info : Type}.

Implicit Types tm : ThreadManager Info.

(** X11.  Retrieval is destructive: right after [getInfoResult(rid)] a
    second [getInfoResult(rid)] returns the empty map, whatever the
    first one returned, so no entry is handed out twice; the buckets of
    other ids are not touched. *)
Theorem getInfoResult_twice (now1 now2 rid : Z) tm :
  (getInfoResult now2 rid (getInfoResult now1 rid tm).2).1 = ∅ /\
  (forall k, is_Some ((getInfoResult now1 rid tm).1 !! k) ->
     (getInfoResult now2 rid (getInfoResult now1 rid tm).2).1 !! k = None) /\
  (forall rid', rid' <> rid ->
     (getInfoResult now2 rid' (getInfoResult now1 rid tm).2).1
     = (getInfoResult now2 rid' tm).1).
Proof.
  assert (Hempty : (getInfoResult now2 rid (getInfoResult now1 rid tm).2).1 = ∅).
  { rewrite getInfoResult_data. unfold bucket_of.
    rewrite getInfoResult_buckets, decide_True by done.
    by destruct (infoResults tm !! rid). }
  split; [done|]. split.
  - intros k _. by rewrite Hempty.
  - intros rid' Hne. rewrite !getInfoResult_data. unfold bucket_of.
    by rewrite getInfoResult_buckets, decide_False.
Qed.

(** X12.  What a worker merges is what the next retrieval returns: for
    a [rid] with a bucket, [setInfoResults(rid, delta)] returns, and a
    following [getInfoResult(rid)] gives every entry of [delta], and
    for the keys that [delta] lacks the entries that were stored before;
    a second merge adds to the first, the later value winning. *)
Theorem setInfoResults_then_getInfoResult
    (now rid : Z) (delta delta2 : gmap string Info) tm (bucket : gmap string Info) :
  infoResults tm !! rid = Some bucket ->
  exists tm' tm'',
    setInfoResults rid delta tm = Ok tm' /\
    (getInfoResult now rid tm').1 = delta ∪ bucket /\
    (forall k v, delta !! k = Some v ->
                 (getInfoResult now rid tm').1 !! k = Some v) /\
    (forall k, delta !! k = None ->
               (getInfoResult now rid tm').1 !! k = bucket !! k) /\
    setInfoResults rid delta2 tm' = Ok tm'' /\
    (getInfoResult now rid tm'').1 = delta2 ∪ (delta ∪ bucket) /\
    (forall rid', rid' <> rid ->
       infoResults tm'' !! rid' = infoResults tm !! rid').
Proof.
  intros Hb.
  set (tm1 := with_infoResults (<[rid := delta ∪ bucket]> (infoResults tm)) tm).
  set (tm2 := with_infoResults
                (<[rid := delta2 ∪ (delta ∪ bucket)]> (infoResults tm1)) tm1).
  assert (H1 : setInfoResults rid delta tm = Ok tm1)
    by (unfold setInfoResults; by rewrite Hb).
  assert (Hb1 : infoResults tm1 !! rid = Some (delta ∪ bucket))
    by apply lookup_insert_eq.
  assert (H2 : setInfoResults rid delta2 tm1 = Ok tm2)
    by (unfold setInfoResults; by rewrite Hb1).
  assert (Hb2 : infoResults tm2 !! rid = Some (delta2 ∪ (delta ∪ bucket)))
    by apply lookup_insert_eq.
  assert (G1 : (getInfoResult now rid tm1).1 = delta ∪ bucket)
    by (rewrite getInfoResult_data; unfold bucket_of; by rewrite Hb1).
  exists tm1, tm2. split; [done|]. split; [done|]. rewrite G1.
  split; [|split; [|split; [done|split]]].
  - intros k v Hk. by apply lookup_union_Some_l.
  - intros k Hk. by apply lookup_union_r.
  - rewrite getInfoResult_data. unfold bucket_of. by rewrite Hb2.
  - intros rid' Hne. subst tm2 tm1. cbn [with_infoResults infoResults].
    by rewrite !lookup_insert_ne.
Qed.

Lemma resultIDs_kept tm :
  (forall now rid, resultIDs (getInfoResult now rid tm).2 = resultIDs tm) /\
  (forall rid delta tm', setInfoResults rid delta tm = Ok tm' ->
                         resultIDs tm' = resultIDs tm) /\
  (forall now, resultIDs (expire now tm).1 = resultIDs tm).
Proof.
  split; [|split].
  - intros now rid. unfold getInfoResult. cbn [with_timestamp infoResults].
    by destruct (infoResults tm !! rid).
  - intros rid delta tm'. unfold setInfoResults.
    destruct (infoResults tm !! rid); [|done]. by intros [= <-].
  - intros now. unfold expire. by destruct (_ && _).
Qed.

End CacheMore.

Section ResultIds.

Import ThreadMgr Api Examples.

Context {Info : Type}.

Implicit Types tm : ThreadManager Info.

Lemma issued_ids_closed_form (trace : list (Z * cache_event Info)) : forall tm,
  (issued_ids trace tm).1
  = map (fun i : nat => resultIDs tm + Z.of_nat i) (seq 0 (creations trace)).
Proof.
  induction trace as [|[now ev] trace IH]; intros tm; [done|].
  destruct (resultIDs_kept tm) as (Hget & Hset & Hexp).
  destruct ev as [[|rid|rid delta]|]; cbn [issued_ids creations].
  - unfold createResultThread at 1. cbn [with_timestamp resultIDs].
    match goal with
    | |- context [issued_ids trace ?tm1] =>
        specialize (IH tm1); destruct (issued_ids trace tm1) as [rids tm2]
    end.
    cbn [fst snd resultIDs] in *. rewrite IH.
    cbn [seq map]. f_equal; [lia|].
    rewrite <- seq_shift, map_map. apply map_ext. intros i. lia.
  - by rewrite IH, Hget.
  - destruct (setInfoResults rid delta tm) as [tm'|e] eqn:Hs; [|apply IH].
    by rewrite IH, (Hset _ _ _ Hs).
  - by rewrite IH, Hexp.
Qed.

(** X13.  Result ids are never handed out twice.  Over any sequence of
    probe creations, retrievals, merges and ticks (cache purges
    included), the ids that [createResultThread] returns are the
    consecutive integers from the counter's starting value: they are
    pairwise different, and from the counter value 0 that [__init__]
    sets none of them is below 0, so none is the [-1] that says "no more
    data". *)
Theorem result_ids_are_distinct (trace : list (Z * cache_event Info)) tm :
  (issued_ids trace tm).1
  = map (fun i : nat => resultIDs tm + Z.of_nat i) (seq 0 (creations trace)) /\
  NoDup (issued_ids trace tm).1 /\
  (forall rid, rid ∈ (issued_ids trace tm).1 -> resultIDs tm <= rid) /\
  (forall rid, rid ∈ (issued_ids trace ThreadManager_init).1 ->
               0 <= rid /\ rid <> -1).
Proof.
  split; [apply issued_ids_closed_form|]. split; [|split].
  - rewrite issued_ids_closed_form. apply NoDup_fmap_2; [|apply NoDup_seq].
    intros i j Hij. lia.
  - intros rid. rewrite issued_ids_closed_form.
    intros (i & -> & _)%list_elem_of_fmap. lia.
  - intros rid. rewrite issued_ids_closed_form.
    intros (i & -> & _)%list_elem_of_fmap. cbn [ThreadManager_init resultIDs]. lia.
Qed.


End ResultIds.

Section ResultIdsWitnesses.

Import ThreadMgr Api Examples.


End ResultIdsWitnesses.

(** ** Permissions of the API *)

Section Permissions.

Import Api.

(** [has_permission] bit by bit. *)
Lemma has_permission_bits (u p : Z) :
  has_permission u p = true <->
  forall n, 0 <= n -> Z.testbit p n = true -> Z.testbit u n = true.
Proof.
  unfold has_permission. rewrite Z.eqb_eq. split.
  - intros Heq n Hn Hp. rewrite Heq, Z.land_spec in Hp.
    by apply andb_true_iff in Hp as [? _].
  - intros Hbits. apply Z.bits_inj'. intros n Hn.
    rewrite Z.land_spec. specialize (Hbits n Hn).
    destruct (Z.testbit p n); [by rewrite Hbits|by rewrite andb_false_r].
Qed.

(** X15.  [has_permission(userperms, perms)] holds exactly when every
    bit of [perms] is a bit of [userperms].  So [Perms.ALL] asks for
    nothing, asking for two permissions at once is asking for each of
    them, and whoever holds all bits of another user's permissions has
    every permission that user has. *)
Theorem has_permission_is_inclusion (u : Z) :
  has_permission u ALL = true /\
  (forall p,
     has_permission u p = true <->
     forall n, 0 <= n -> Z.testbit p n = true -> Z.testbit u n = true) /\
  (forall p q,
     has_permission u (Z.lor p q) = has_permission u p && has_permission u q) /\
  (forall u' p,
     has_permission u' u = true -> has_permission u p = true ->
     has_permission u' p = true).
Proof.
  split; [|split; [|split]].
  - unfold has_permission, ALL. by rewrite Z.land_0_r.
  - apply has_permission_bits.
  - intros p q. apply eq_true_iff_eq.
    rewrite andb_true_iff, !has_permission_bits. split.
    + intros H. split; intros n Hn Hb; apply (H n Hn);
        rewrite Z.lor_spec, Hb; [done|apply orb_true_r].
    + intros [Hp Hq] n Hn Hb. rewrite Z.lor_spec in Hb.
      apply orb_true_iff in Hb as [Hb|Hb]; auto.
  - intros u' p. rewrite !has_permission_bits. intros Hu Hp n Hn Hb. auto.
Qed.

Lemma permMap_NoDup : NoDup permMap_entries.*1.
Proof. apply (bool_decide_unpack _). vm_compute. exact I. Qed.

Lemma permMap_lookup func bits :
  permMap !! func = Some bits <-> (func, bits) ∈ permMap_entries.
Proof.
  unfold permMap. split.
  - apply elem_of_list_to_map_2.
  - apply elem_of_list_to_map_1, permMap_NoDup.
Qed.

(** X16.  [isAuthorized]: an admin may call every method.  Any other
    user may call a method exactly when the method carries a
    [@permission] decorator and the user holds its bits; so the methods
    without decorator ([kill], [restart], [changePassword],
    [setUserPermission], ...) are closed to every non-admin whatever
    bits are set, a user without any bit may call exactly the five
    methods decorated [Perms.ALL], and a user who holds the nine
    permission bits may call every decorated method. *)
Theorem isAuthorized_rules (func : string) (userdata : UserData) :
  (ud_role userdata = ADMIN -> isAuthorized func userdata = true) /\
  (ud_role userdata <> ADMIN ->
     (isAuthorized func userdata = true <->
      exists bits, (func, bits) ∈ permMap_entries /\
                   has_permission (ud_permission userdata) bits = true) /\
     (func ∈ undecorated -> isAuthorized func userdata = false) /\
     (ud_permission userdata = 0 ->
        (isAuthorized func userdata = true <-> func ∈ open_to_all)) /\
     (ud_permission userdata
      = Z.lor ADD (Z.lor DELETE (Z.lor STATUS (Z.lor LIST (Z.lor MODIFY
          (Z.lor DOWNLOAD (Z.lor SETTINGS (Z.lor ACCOUNTS LOGS))))))) ->
        (isAuthorized func userdata = true <-> func ∈ permMap_entries.*1))).
Proof.
  split.
  - intros Hadmin. unfold isAuthorized. by rewrite Hadmin.
  - intros Huser.
    assert (Hiff : isAuthorized func userdata = true <->
              exists bits, (func, bits) ∈ permMap_entries /\
                           has_permission (ud_permission userdata) bits = true).
    { unfold isAuthorized. apply Z.eqb_neq in Huser as ->.
      destruct (permMap !! func) as [bits|] eqn:Hl.
      - apply permMap_lookup in Hl. split.
        + intros H. exists bits. split; [done|].
          by destruct (has_permission _ bits).
        + intros (bits' & Hin & Hp). apply permMap_lookup in Hl, Hin.
          rewrite Hl in Hin. injection Hin as ->. by rewrite Hp.
      - split; [done|]. intros (bits & Hin & _).
        apply permMap_lookup in Hin. congruence. }
    split; [exact Hiff|]. split; [|split].
    + intros Hin. apply not_true_is_false. rewrite Hiff.
      intros (bits & Hentry & _).
      assert (Hfst : func ∈ permMap_entries.*1)
        by (apply list_elem_of_fmap; by exists (func, bits)).
      assert (Hnone : Forall (fun f => f ∉ permMap_entries.*1) undecorated)
        by (apply (bool_decide_unpack _); vm_compute; exact I).
      rewrite Forall_forall in Hnone. by apply (Hnone func).
    + intros Hzero. rewrite Hiff, Hzero.
      assert (Hopen : open_to_all
                      = (filter (fun e : string * Z => e.2 = 0) permMap_entries).*1)
        by (vm_compute; reflexivity).
      rewrite Hopen, list_elem_of_fmap. split.
      * intros (bits & Hin & Hp). exists (func, bits). split; [done|].
        apply list_elem_of_filter. split; [|done]. cbn.
        unfold has_permission in Hp. rewrite Z.land_0_l in Hp. by apply Z.eqb_eq.
      * intros ([f bits] & -> & [Hb Hin]%list_elem_of_filter).
        cbn [fst snd] in Hb |- *. subst bits.
        exists 0. split; [exact Hin|]. reflexivity.
    + intros Hall. rewrite Hiff, Hall, list_elem_of_fmap. split.
      * intros (bits & Hin & _). by exists (func, bits).
      * intros ([f bits] & -> & Hin). cbn. exists bits. split; [done|].
        assert (Hforall : Forall (fun e : string * Z =>
                   has_permission
                     (Z.lor ADD (Z.lor DELETE (Z.lor STATUS (Z.lor LIST
                        (Z.lor MODIFY (Z.lor DOWNLOAD (Z.lor SETTINGS
                           (Z.lor ACCOUNTS LOGS))))))))
                     e.2 = true) permMap_entries).
        { apply (bool_decide_unpack _). vm_compute. exact I. }
        rewrite Forall_forall in Hforall. by apply (Hforall (f, bits)).
Qed.

End Permissions.

(** ** Grouping urls, ordering files, naming folders *)

Section ApiHelpers.

Import Api.

Lemma checkURLs_fold (data : list (string * string)) :
  forall (acc : gmap string (list string)) (plugin : string),
  fold_left
    (fun (plugins : gmap string (list string)) '(url, plugin) =>
       match plugins !! plugin with
       | Some l => <[plugin := l ++ [url]]> plugins
       | None => <[plugin := [url]]> plugins
       end)
    data acc !! plugin
  = match acc !! plugin, urls_of plugin data with
    | Some l, us => Some (l ++ us)
    | None, [] => None
    | None, us => Some us
    end.
Proof.
  induction data as [|[url p] data IH]; intros acc plugin.
  - cbn. destruct (acc !! plugin); [by rewrite app_nil_r|done].
  - cbn [fold_left]. rewrite IH. unfold urls_of.
    rewrite filter_cons. cbn [snd].
    destruct (decide (p = plugin)) as [->|Hne].
    + cbn [fmap list_fmap fst].
      destruct (acc !! plugin) as [l|] eqn:Hacc; rewrite lookup_insert_eq.
      * by rewrite <- app_assoc.
      * done.
    + assert (Hsame : forall m : gmap string (list string),
                match acc !! p with
                | Some l => <[p := l ++ [url]]> acc
                | None => <[p := [url]]> acc
                end !! plugin = acc !! plugin).
      { intros _. destruct (acc !! p); by rewrite lookup_insert_ne. }
      by rewrite (Hsame ∅).
Qed.

(** X17.  [checkURLs] sorts the urls under their plugins and loses
    none: a plugin is a key of the result exactly when some url belongs
    to it, and its value lists all its urls, each as often as given and
    in the order given. *)
Theorem checkURLs_groups (data : list (string * string)) (plugin : string) :
  checkURLs data !! plugin
  = match urls_of plugin data with
    | [] => None
    | us => Some us
    end /\
  (forall url, (url, plugin) ∈ data <->
               exists us, checkURLs data !! plugin = Some us /\ url ∈ us).
Proof.
  assert (Hl : checkURLs data !! plugin
               = match urls_of plugin data with [] => None | us => Some us end).
  { unfold checkURLs. rewrite checkURLs_fold. by rewrite lookup_empty. }
  split; [exact Hl|]. intros url. rewrite Hl.
  assert (Hin : (url, plugin) ∈ data <-> url ∈ urls_of plugin data).
  { unfold urls_of. rewrite list_elem_of_fmap. split.
    - intros H. exists (url, plugin). split; [done|].
      by apply list_elem_of_filter.
    - intros ([u p] & -> & [Hp H]%list_elem_of_filter). cbn in *. by subst. }
  rewrite Hin. destruct (urls_of plugin data) as [|u us].
  - split; [by intros ?%elem_of_nil|]. by intros (? & ? & _).
  - split; [intros H; by eexists|]. by intros (? & [= <-] & ?).
Qed.

Lemma first_free_ge fuel (d : gmap Z Z) : forall o, o <= first_free fuel d o.
Proof.
  induction fuel as [|fuel IH]; intros o; cbn [first_free]; [lia|].
  case_bool_decide; [|lia]. specialize (IH (o + 1)). lia.
Qed.

Lemma first_free_delete fuel (d : gmap Z Z) k : forall o,
  k < o -> first_free fuel (delete k d) o = first_free fuel d o.
Proof.
  induction fuel as [|fuel IH]; intros o Hk; [done|]. cbn [first_free].
  rewrite lookup_delete_ne by lia. case_bool_decide; [|done].
  apply IH. lia.
Qed.

(** With more rounds than the dictionary has keys, the [while] loop
    stops by itself: the key it ends on is free. *)
Lemma first_free_is_free fuel : forall (d : gmap Z Z) o,
  (size d < fuel)%nat -> d !! first_free fuel d o = None.
Proof.
  induction fuel as [|fuel IH]; intros d o Hsize; [lia|]. cbn [first_free].
  case_bool_decide as Hs; [|by apply eq_None_not_Some].
  destruct Hs as [v Hv].
  rewrite <- (first_free_delete fuel d o (o + 1)) by lia.
  pose proof (first_free_ge fuel (delete o d) (o + 1)) as Hge.
  rewrite <- (lookup_delete_ne d o (first_free fuel (delete o d) (o + 1))) by lia.
  assert (Hne : size d <> O).
  { intros ->%map_size_empty_inv. by rewrite lookup_empty in Hv. }
  apply IH. rewrite map_size_delete, Hv. lia.
Qed.

Lemma order_loop_fold (entries : list (Z * Z)) : forall acc : gmap Z Z,
  let res := fold_left
               (fun (order : gmap Z Z) '(o, id) =>
                  <[first_free (S (size order)) order o := id]> order)
               entries acc in
  size res = (size acc + List.length entries)%nat /\
  acc ⊆ res /\
  (forall o id, (o, id) ∈ entries -> exists k, o <= k /\ res !! k = Some id) /\
  (NoDup entries.*1 -> (forall o, o ∈ entries.*1 -> acc !! o = None) ->
   forall o id, (o, id) ∈ entries -> res !! o = Some id).
Proof.
  induction entries as [|[o id] entries IH]; intros acc; cbn zeta.
  - cbn. split; [lia|]. split; [done|].
    split; intros; by match goal with H : _ ∈ [] |- _ => apply elem_of_nil in H end.
  - cbn [fold_left].
    set (k := first_free (S (size acc)) acc o).
    assert (Hfree : acc !! k = None) by (apply first_free_is_free; lia).
    assert (Hk : o <= k) by apply first_free_ge.
    specialize (IH (<[k := id]> acc)). cbn zeta in IH.
    destruct IH as (Hsize & Hsub & Hall & Hnd).
    rewrite map_size_insert_None in Hsize by done.
    split; [cbn [List.length]; lia|].
    split; [etrans; [by apply insert_subseteq|done]|].
    split.
    + intros o' id' [[= -> ->]|Hin]%elem_of_cons; [|by apply Hall].
      exists k. split; [done|].
      eapply lookup_weaken; [|exact Hsub]. apply lookup_insert_eq.
    + intros Hnodup Hacc o' id' Hin.
      cbn [fmap list_fmap fst] in Hnodup, Hacc.
      apply NoDup_cons in Hnodup as [Hnotin Hnodup].
      assert (Hko : k = o).
      { subst k. cbn [first_free].
        rewrite bool_decide_eq_false_2; [done|].
        rewrite (Hacc o) by apply list_elem_of_here. by intros [? ?]. }
      apply elem_of_cons in Hin as [[= -> ->]|Hin].
      * eapply lookup_weaken; [|exact Hsub]. rewrite Hko. apply lookup_insert_eq.
      * apply Hnd; [done| |done].
        intros o2 Ho2. rewrite lookup_insert_ne.
        -- apply Hacc. by apply list_elem_of_further.
        -- rewrite Hko. intros ->. done.
Qed.

(** X18.  The order loop of [getFileOrder] and [getPackageOrder] loses
    no entry: the result has as many keys as there are entries, every
    id is found under its order or a later one, and when the orders are
    all different every id is found under its own order. *)
Theorem order_loop_keeps_all (entries : list (Z * Z)) :
  size (order_loop entries) = List.length entries /\
  (forall o id, (o, id) ∈ entries ->
     exists k, o <= k /\ order_loop entries !! k = Some id) /\
  (NoDup entries.*1 ->
   forall o id, (o, id) ∈ entries -> order_loop entries !! o = Some id).
Proof.
  destruct (order_loop_fold entries ∅) as (Hsize & _ & Hall & Hnd).
  split; [by rewrite map_size_empty in Hsize|]. split; [exact Hall|].
  intros Hnodup. apply Hnd; [done|]. intros; apply lookup_empty.
Qed.

End ApiHelpers.

Section PackageFolder.

Import Api.

Lemma prefix_nil s : String.prefix EmptyString s = true.
Proof. by destruct s. Qed.

(** The characters of a prefix are characters of the string. *)
Lemma prefix_all_chars (Q : ascii -> bool) p : forall s,
  String.prefix p s = true -> all_chars Q s = true -> all_chars Q p = true.
Proof.
  induction p as [|a p IH]; intros [|b s] Hp Hs; try done.
  cbn [String.prefix] in Hp. destruct (ascii_dec a b) as [->|]; [|done].
  cbn [all_chars] in *. apply andb_true_iff in Hs as [Hb Hs].
  by rewrite Hb, (IH s).
Qed.

(** Replacing a character: what comes out holds the other characters
    of the string and those of the replacement. *)
Lemma replace_char_all_chars (Q : ascii -> bool) (c : ascii) (new s : string) :
  all_chars Q new = true ->
  all_chars (fun x => Ascii.eqb x c || Q x) s = true ->
  all_chars Q (replace (String c EmptyString) new s) = true.
Proof.
  intros Hnew. unfold replace. induction s as [|x s IH]; [done|].
  cbn [all_chars replace_go String.prefix String.length Nat.pred].
  intros [Hx Hs]%andb_true_iff. specialize (IH Hs).
  destruct (ascii_dec c x) as [->|Hne].
  - rewrite prefix_nil, all_chars_app. by rewrite Hnew, IH.
  - cbn [all_chars]. rewrite IH, andb_true_r.
    apply orb_true_iff in Hx as [Hx|Hx]; [|done].
    apply Ascii.eqb_eq in Hx. congruence.
Qed.

(** A text that does not occur is not replaced. *)
Lemma replace_go_absent (Q : ascii -> bool) (old new : string) : forall s,
  all_chars Q old = false -> all_chars Q s = true ->
  replace_go old new O s = s.
Proof.
  intros s Hold. induction s as [|x s IH]; [done|]. intros Hs.
  cbn [replace_go].
  destruct (String.prefix old (String x s)) eqn:Hp.
  - rewrite (prefix_all_chars Q _ _ Hp Hs) in Hold. discriminate.
  - cbn [all_chars] in Hs. apply andb_true_iff in Hs as [_ Hs]. by rewrite IH.
Qed.

(** X19.  The folder that [addPackage] hands to the file store holds
    no [":"], no ["/"] and no backslash, whatever the package is called;
    it is empty when [folder_per_package] is off, and it is the package
    name itself when that option is on and the name holds none of the
    three characters. *)
Theorem addPackage_folder_is_safe (folder_per_package : bool) (name : string) :
  all_chars path_safe (addPackage_folder folder_per_package name) = true /\
  addPackage_folder false name = EmptyString /\
  (all_chars path_safe name = true -> addPackage_folder true name = name).
Proof.
  split; [|split].
  - unfold addPackage_folder.
    set (s0 := replace "http://" EmptyString _).
    apply replace_char_all_chars; [done|].
    set (s1 := replace ":" EmptyString s0).
    assert (H1 : all_chars (fun x => negb (Ascii.eqb x ":")) s1 = true).
    { apply replace_char_all_chars; [done|].
      clear. induction s0 as [|x s0 IH]; [done|]. cbn [all_chars].
      rewrite IH, andb_true_r. by destruct (Ascii.eqb x ":"). }
    assert (H2 : all_chars (fun x => negb (Ascii.eqb x ":") && negb (Ascii.eqb x "/"))
                   (replace "/" "_" s1) = true).
    { apply replace_char_all_chars; [done|].
      eapply all_chars_impl; [|exact H1]. intros x Hx. cbn beta.
      rewrite Hx. by destruct (Ascii.eqb x "/"). }
    eapply all_chars_impl; [|exact H2]. intros x Hx. cbn beta. unfold path_safe.
    rewrite Hx. by destruct (Ascii.eqb x "092").
  - reflexivity.
  - intros Hsafe. unfold addPackage_folder, replace.
    rewrite (replace_go_absent path_safe "http://") by done.
    rewrite (replace_go_absent path_safe ":") by done.
    rewrite (replace_go_absent path_safe "/") by done.
    by rewrite (replace_go_absent path_safe (String "092" EmptyString)).
Qed.

End PackageFolder.

(** ** The pool of download threads *)

Section ThreadPool.

Import ThreadMgr.

Lemma running_createThread threads : running (createThread threads) = running threads.
Proof. unfold running, createThread. rewrite omap_app. cbn. by rewrite app_nil_r. Qed.

Lemma quit_first_free_length threads :
  List.length (quit_first_free threads) = List.length threads.
Proof.
  induction threads as [|th threads IH]; [done|]. cbn [quit_first_free].
  destruct (th_active th); cbn [List.length]; by rewrite ?IH.
Qed.

Lemma quit_first_free_running threads :
  running (quit_first_free threads) = running threads.
Proof.
  unfold running. induction threads as [|th threads IH]; [done|].
  cbn [quit_first_free]. destruct (th_active th) eqn:Ha; cbn [omap list_omap].
  - by rewrite Ha, IH.
  - cbn [put th_active]. by rewrite Ha.
Qed.

(** The threads before the first idle one are left alone, the first
    idle one gets ["quit"] at the end of its inbox, the ones behind it
    are left alone. *)
Lemma quit_first_free_split threads :
  (Forall (fun th => is_Some (th_active th)) threads /\
   quit_first_free threads = threads) \/
  (exists busy th rest,
     threads = busy ++ th :: rest /\
     Forall (fun th => is_Some (th_active th)) busy /\
     th_active th = None /\
     quit_first_free threads = busy ++ put MsgQuit th :: rest).
Proof.
  induction threads as [|th threads IH]; [left; by split|].
  cbn [quit_first_free]. destruct (th_active th) as [f|] eqn:Ha.
  - destruct IH as [[Hall Heq]|(busy & th' & rest & -> & Hbusy & Hidle & Heq)].
    + left. split; [constructor; [by rewrite Ha|done]|]. by rewrite Heq.
    + right. exists (th :: busy), th', rest. split; [done|].
      split; [constructor; [by rewrite Ha|done]|]. split; [done|].
      by rewrite Heq.
  - right. by exists [], th, threads.
Qed.

Lemma checkThreadCount_iter_grow (max_downloads : Z) (n : nat) : forall threads,
  Z.of_nat (List.length threads) + Z.of_nat n = max_downloads ->
  Nat.iter n (fun ts => (checkThreadCount max_downloads ts).1) threads
  = threads ++ replicate n DownloadThread_init.
Proof.
  induction n as [|n IH]; intros threads Hlen.
  - cbn. by rewrite app_nil_r.
  - rewrite Nat.iter_succ_r. unfold checkThreadCount at 2.
    destruct (Z.eqb_spec (Z.of_nat (List.length threads)) max_downloads); [lia|].
    destruct (Z.ltb_spec (Z.of_nat (List.length threads)) max_downloads); [|lia].
    cbn [fst]. rewrite IH.
    + unfold createThread. rewrite <- app_assoc. reflexivity.
    + unfold createThread. rewrite length_app. cbn [List.length]. lia.
Qed.

(** X20.  [checkThreadCount] moves the pool towards
    [download.max_downloads] one step at a time and never disturbs a
    running download.  A call adds at most one thread and removes none,
    and the files that are running are the same afterwards.  Below the
    cap it appends one idle thread, so a pool of [n] threads is at the
    cap after [max_downloads - n] calls; at the cap the call changes
    nothing and returns [True].  Above the cap no thread is removed:
    the first idle thread gets ["quit"] into its inbox, and if every
    thread is busy nothing happens. *)
Theorem checkThreadCount_pool (max_downloads : Z) (threads : list DownloadThread) :
  let n := Z.of_nat (List.length threads) in
  let after := (checkThreadCount max_downloads threads).1 in
  running after = running threads /\
  (n < max_downloads ->
     after = threads ++ [DownloadThread_init] /\
     Nat.iter (Z.to_nat (max_downloads - n))
              (fun ts => (checkThreadCount max_downloads ts).1) threads
     = threads ++ replicate (Z.to_nat (max_downloads - n)) DownloadThread_init) /\
  (n = max_downloads -> checkThreadCount max_downloads threads = (threads, true)) /\
  (max_downloads < n ->
     List.length after = List.length threads /\
     ((Forall (fun th => is_Some (th_active th)) threads /\ after = threads) \/
      (exists busy th rest,
         threads = busy ++ th :: rest /\
         Forall (fun th => is_Some (th_active th)) busy /\
         th_active th = None /\
         after = busy ++ put MsgQuit th :: rest))).
Proof.
  cbn zeta. unfold checkThreadCount.
  destruct (Z.eqb_spec (Z.of_nat (List.length threads)) max_downloads) as [Heq|Hne].
  - cbn [fst]. split; [done|]. split; [lia|]. split; [done|lia].
  - destruct (Z.ltb_spec (Z.of_nat (List.length threads)) max_downloads) as [Hlt|Hge];
      cbn [fst].
    + split; [apply running_createThread|]. split; [|split; [lia|lia]].
      intros _. split; [done|].
      apply checkThreadCount_iter_grow. lia.
    + split; [apply quit_first_free_running|]. split; [lia|]. split; [lia|].
      intros _. split; [apply quit_first_free_length|apply quit_first_free_split].
Qed.

Lemma inuse_pairs_spec (files : list PyFile) : forall pairs,
  inuse_pairs files = Ok pairs ->
  forall name limit,
    (name, limit) ∈ pairs <->
    exists f p limitDL,
      f ∈ files /\ pf_pluginname f = name /\ pf_plugin f = Some p /\
      pl_account p = Some limitDL /\ getLimit limitDL = Ok limit.
Proof.
  induction files as [|f files IH]; intros pairs Hrun name limit.
  - injection Hrun as <-. split; [by intros ?%elem_of_nil|].
    by intros (? & ? & ? & ?%elem_of_nil & _).
  - cbn [inuse_pairs] in Hrun.
    assert (Hskip : (forall p limitDL, pf_plugin f = Some p ->
                                       pl_account p <> Some limitDL) ->
              inuse_pairs files = Ok pairs ->
              (name, limit) ∈ pairs <->
              exists f0 p limitDL,
                f0 ∈ f :: files /\ pf_pluginname f0 = name /\
                pf_plugin f0 = Some p /\ pl_account p = Some limitDL /\
                getLimit limitDL = Ok limit).
    { intros Hno Hrest. rewrite (IH _ Hrest). split.
      - intros (f0 & p & l & Hin & H). exists f0, p, l.
        split; [by apply list_elem_of_further|done].
      - intros (f0 & p & l & [->|Hin]%elem_of_cons & Hn & Hp & Ha & Hl).
        + by destruct (Hno _ l Hp).
        + by exists f0, p, l. }
    destruct (pf_plugin f) as [[multi [limitDL|]]|] eqn:Hp.
    + destruct (getLimit limitDL) as [lim|] eqn:Hlim; [|done]. cbn [rbind] in Hrun.
      destruct (inuse_pairs files) as [rest|] eqn:Hrest; [|done].
      cbn [rbind] in Hrun. injection Hrun as <-.
      rewrite elem_of_cons, (IH _ eq_refl). split.
      * intros [[= -> ->]|(f0 & p & l & Hin & H)].
        -- exists f, (mkPlugin multi (Some limitDL)), limitDL.
           split; [apply list_elem_of_here|done].
        -- exists f0, p, l. split; [by apply list_elem_of_further|done].
      * intros (f0 & p & l & [->|Hin]%elem_of_cons & Hn & Hp0 & Ha & Hl).
        -- left. rewrite Hp in Hp0. injection Hp0 as <-. cbn in Ha.
           injection Ha as <-. rewrite Hlim in Hl. injection Hl as <-.
           by rewrite Hn.
        -- right. by exists f0, p, l.
    + apply Hskip; [|done]. intros p l [= <-]. done.
    + apply Hskip; [|done]. intros p l [=].
Qed.

Lemma single_download_spec (files : list PyFile) (name : string) :
  name ∈ single_download files <->
  exists f p, f ∈ files /\ pf_pluginname f = name /\ pf_plugin f = Some p /\
              pl_multiDL p = false.
Proof.
  unfold single_download. rewrite list_elem_of_omap. split.
  - intros (f & Hin & Hf). destruct (pf_plugin f) as [p|] eqn:Hp; [|done].
    destruct (pl_multiDL p) eqn:Hm; [done|]. injection Hf as <-.
    by exists f, p.
  - intros (f & p & Hin & <- & Hp & Hm). exists f. split; [done|].
    by rewrite Hp, Hm.
Qed.

(** X21.  The plugins that [assignJob] keeps from getting another job.
    When the computation returns, a plugin is in [occ] exactly if one
    of the running files uses it with a plugin that does not allow
    several downloads at once, or if one of the running files uses it
    with an account whose [limitDL] is a positive number that the count
    of running files of that plugin has reached.  It returns whenever
    the [limitDL] of every account in use reads as a number. *)
Theorem assignJob_occ_spec (threads : list DownloadThread) :
  (forall occ, assignJob_occ threads = Ok occ ->
     forall name,
       name ∈ occ <->
       (exists f p,
          f ∈ running threads /\ pf_pluginname f = name /\
          pf_plugin f = Some p /\ pl_multiDL p = false) \/
       (exists f p limitDL limit,
          f ∈ running threads /\ pf_pluginname f = name /\
          pf_plugin f = Some p /\ pl_account p = Some limitDL /\
          getLimit limitDL = Ok limit /\
          0 < limit <= running_count name threads)) /\
  ((forall f p limitDL,
      f ∈ running threads -> pf_plugin f = Some p ->
      pl_account p = Some limitDL -> exists limit, getLimit limitDL = Ok limit) ->
   exists occ, assignJob_occ threads = Ok occ).
Proof.
  split.
  - intros occ Hrun name. unfold assignJob_occ in Hrun.
    destruct (inuse_pairs (running threads)) as [pairs|] eqn:Hpairs; [|done].
    cbn [rbind] in Hrun. injection Hrun as <-.
    rewrite elem_of_list_to_set, elem_of_app, single_download_spec.
    apply or_iff_compat_l.
    rewrite list_elem_of_fmap. split.
    + intros ([n limit] & -> & [[Hpos Hcnt] Hin]%list_elem_of_filter).
      cbn [fst snd] in *.
      apply elem_of_elements, elem_of_list_to_set in Hin.
      apply (inuse_pairs_spec _ _ Hpairs) in Hin
        as (f & p & l & Hf & Hn & Hp & Ha & Hl).
      by exists f, p, l, limit.
    + intros (f & p & l & limit & Hf & Hn & Hp & Ha & Hl & Hrange).
      exists (name, limit). split; [done|].
      apply list_elem_of_filter. split; [done|].
      apply elem_of_elements, elem_of_list_to_set.
      apply (inuse_pairs_spec _ _ Hpairs). by exists f, p, l.
  - intros Hnum. unfold assignJob_occ.
    assert (Hok : exists pairs, inuse_pairs (running threads) = Ok pairs).
    { induction (running threads) as [|f files IH]; [by eexists|].
      destruct IH as [rest Hrest].
      { intros f0 p l Hin. apply Hnum. by apply list_elem_of_further. }
      cbn [inuse_pairs]. destruct (pf_plugin f) as [[multi [l|]]|] eqn:Hp;
        [|by eexists|by eexists].
      destruct (Hnum f _ l (list_elem_of_here _ _) Hp eq_refl) as [lim Hlim].
      rewrite Hlim, Hrest. by eexists. }
    destruct Hok as [pairs ->]. by eexists.
Qed.

Lemma int_of_str_raises (s : string) (e : exn) :
  int_of_str s = Raise e -> e = ValueError.
Proof.
  unfold int_of_str, int_of_digits. intros H.
  repeat match type of H with
         | context [match ?x with _ => _ end] => destruct x
         end; congruence.
Qed.

Lemma getLimit_raises (limitDL : option (list string)) (e : exn) :
  getLimit limitDL = Raise e ->
  (limitDL = Some [] /\ e = IndexError) \/
  (exists s rest, limitDL = Some (s :: rest) /\ e = ValueError).
Proof.
  unfold getLimit. destruct limitDL as [[|s rest]|]; cbn.
  - intros [= <-]. by left.
  - intros H%int_of_str_raises. right. by exists s, rest.
  - intros H. vm_compute in H. discriminate.
Qed.

Lemma inuse_pairs_raises (files : list PyFile) (e : exn) :
  inuse_pairs files = Raise e ->
  exists f p limitDL,
    f ∈ files /\ pf_plugin f = Some p /\ pl_account p = Some limitDL /\
    getLimit limitDL = Raise e.
Proof.
  induction files as [|f files IH]; [done|]. cbn [inuse_pairs]. intros Hrun.
  assert (Hrest : inuse_pairs files = Raise e ->
            exists f0 p limitDL,
              f0 ∈ f :: files /\ pf_plugin f0 = Some p /\
              pl_account p = Some limitDL /\ getLimit limitDL = Raise e).
  { intros (f0 & p & l & Hin & H)%IH. exists f0, p, l.
    split; [by apply list_elem_of_further|done]. }
  destruct (pf_plugin f) as [[multi [limitDL|]]|] eqn:Hp; [|by apply Hrest..].
  destruct (getLimit limitDL) as [lim|e0] eqn:Hlim; cbn [rbind] in Hrun.
  - destruct (inuse_pairs files) as [rest|e1]; [done|].
    cbn [rbind] in Hrun. injection Hrun as ->. by apply Hrest.
  - injection Hrun as ->.
    exists f, (mkPlugin multi (Some limitDL)), limitDL.
    split; [apply list_elem_of_here|done].
Qed.

(** X22.  [assignJob] raises while it computes the occupied plugins
    only because of an account option: one of the running files has an
    account whose [limitDL] does not read as a number, and the exception
    is the one of that [getLimit] call, an [IndexError] for an empty
    [limitDL] list and a [ValueError] for a first element that is no
    integer literal.  An account without the option counts as limit 0
    and never raises. *)
Theorem assignJob_occ_raises (threads : list DownloadThread) (e : exn) :
  assignJob_occ threads = Raise e ->
  getLimit None = Ok 0 /\
  exists f p limitDL,
    f ∈ running threads /\ pf_plugin f = Some p /\
    pl_account p = Some limitDL /\ getLimit limitDL = Raise e /\
    ((limitDL = Some [] /\ e = IndexError) \/
     (exists s rest, limitDL = Some (s :: rest) /\ e = ValueError)).
Proof.
  intros Hrun. split; [vm_compute; reflexivity|].
  unfold assignJob_occ in Hrun.
  destruct (inuse_pairs (running threads)) as [pairs|e0] eqn:Hpairs; [done|].
  cbn [rbind] in Hrun. injection Hrun as ->.
  apply inuse_pairs_raises in Hpairs as (f & p & l & Hin & Hp & Ha & Hl).
  exists f, p, l. repeat split; try done. by apply getLimit_raises.
Qed.

End ThreadPool.

Section MoreWitnesses.

Import ThreadMgr Examples.

(** The pool of [limited_pool]: ["HosterA"] is occupied, its two
    running files having reached the limit of the account. *)
Lemma limited_pool_occ :
  assignJob_occ limited_pool = Ok {[ "HosterA" ]}.
Proof. vm_compute. reflexivity. Qed.

Lemma assignJob_occ_raises_witness :
  assignJob_occ unreadable_limit_pool = Raise ValueError /\
  getLimit None = Ok 0 /\
  exists f p limitDL,
    f ∈ running unreadable_limit_pool /\ pf_plugin f = Some p /\
    pl_account p = Some limitDL /\ getLimit limitDL = Raise ValueError /\
    ((limitDL = Some [] /\ ValueError = IndexError) \/
     (exists s rest, limitDL = Some (s :: rest) /\ ValueError = ValueError)).
Proof.
  assert (H : assignJob_occ unreadable_limit_pool = Raise ValueError)
    by (vm_compute; reflexivity).
  split; [exact H|]. exact (assignJob_occ_raises _ _ H).
Defined.

Lemma setInfoResults_then_getInfoResult_witness :
  infoResults probe_running !! 0 = Some ∅ /\
  exists tm' tm'',
    setInfoResults 0 probe_delta probe_running = Ok tm' /\
    (getInfoResult 100 0 tm').1 = probe_delta ∪ ∅ /\
    setInfoResults 0 probe_delta tm' = Ok tm'' /\
    (getInfoResult 100 0 tm'').1 = probe_delta ∪ (probe_delta ∪ ∅).
Proof.
  assert (H : infoResults probe_running !! 0 = Some (∅ : gmap string unit))
    by (vm_compute; reflexivity).
  split; [exact H|].
  destruct (setInfoResults_then_getInfoResult 100 0 probe_delta probe_delta
              probe_running ∅ H)
    as (tm' & tm'' & H1 & H2 & _ & _ & H3 & H4 & _).
  by exists tm', tm''.
Defined.

End MoreWitnesses.
